(** * Metric lists of the aggregator: a shallow embedding of
      [src/aggregator/aggregator/list.go]

    The file models [metricList] (one per resolution) and [metricLists]
    (the registry of lists) as explicit state transformers.  Collaborators
    that live in other packages (the element implementations, the msgpack
    encoder and its buffer pool, the flush handler, the clock) are
    interfaces of the development: type classes whose methods are left to
    the instance.  Calls on them are recorded in an event trace carried by
    the list, so that statements about "what was handed to the sink" or
    "which element was consumed" can be read off the trace.

    Execution is sequential: the locks of the source are not modelled.

    The pool of finalizer slices of
    [src/m3x/context/finalizers_arraypool_gen.go] is modelled next to
    them, with Go slices as an underlying array and a length. *)

From stdpp Require Import base numbers list option gmap.
From Stdlib Require Import Init.Byte.

Abbreviation bytes := (list Byte.byte).

(** ** Errors surfaced at the API *)

Inductive error : Set :=
| errListClosed    (* "metric list is closed" *)
| errListsClosed.  (* "metric lists are closed" *)

(** ** Time

    A [time.Time] is kept as nanoseconds since the Unix epoch and a
    [time.Duration] as its int64 nanosecond count.  [Time.Truncate d]
    rounds down to a multiple of [d] counted from Go's zero time
    (January 1, year 1 UTC) and returns the time unchanged when [d <= 0]. *)

Definition unixToInternal : Z := 62135596800 * 1000000000.

Definition Time_Truncate (t d : Z) : Z :=
  if (d <=? 0)%Z then t else (t - (t + unixToInternal) `mod` d)%Z.

Definition Time_Sub (t u : Z) : Z := (t - u)%Z.

(** ** Collaborating interfaces *)

(** The arguments an element passes to the list's [aggMetricFn]. *)
Record ChunkedID : Type := mkChunkedID {
  Prefix : bytes;
  Data : bytes;
  Suffix : bytes
}.

(** [Value] is a float64; the list never computes with it, so it is
    carried as its 64-bit pattern. *)
Record ChunkedMetric : Type := mkChunkedMetric {
  ChunkedID_ : ChunkedID;
  TimeNanos : Z;
  Value : Z
}.

Record ChunkedMetricWithPolicy (Policy : Type) : Type := mkChunkedMetricWithPolicy {
  ChunkedMetric_ : ChunkedMetric;
  Policy_ : Policy
}.
Arguments mkChunkedMetricWithPolicy {Policy} _ _.
Arguments ChunkedMetric_ {Policy} _.
Arguments Policy_ {Policy} _.

(** One call of an element on the emit callback: the six arguments of
    [aggMetricFn]. *)
Record Emission (Policy : Type) : Type := mkEmission {
  em_idPrefix : bytes;
  em_id : bytes;
  em_idSuffix : bytes;
  em_timeNanos : Z;
  em_value : Z;
  em_policy : Policy
}.
Arguments mkEmission {Policy} _ _ _ _ _ _.
Arguments em_idPrefix {Policy} _.
Arguments em_id {Policy} _.
Arguments em_idSuffix {Policy} _.
Arguments em_timeNanos {Policy} _.
Arguments em_value {Policy} _.
Arguments em_policy {Policy} _.

(** [metricElem]: [Consume] takes the aligned boundary, calls the callback
    zero or more times and reports whether the element may be collected.
    The callback returns nothing to the element, so a call of [Consume] is
    the element's next state, the emissions in order and the verdict. *)
Class metricElem (Policy Elem : Type) : Type := {
  Consume : Elem -> Z -> Elem * list (Emission Policy) * bool
}.

(** What the wire format does with one record: the bytes of the whole
    record, or a failure after possibly writing some bytes of it. *)
Inductive EncodeResult : Type :=
| Encoded (record : bytes)
| EncodeFailed (partial : bytes).

Class RecordFormat (Policy : Type) : Type := {
  encodeRecord : ChunkedMetricWithPolicy Policy -> EncodeResult
}.

(** [Handler]: the flush sink.  The boolean is [true] when [Handle]
    returns a non-nil error. *)
Class Handler (Sink : Type) : Type := {
  Handle : Sink -> bytes -> Sink * bool
}.

(** [msgpack.BufferedEncoderPool]: [Get] returns some buffered encoder,
    whose buffer may hold anything until it is reset. *)
Class BufferedEncoderPool (Pool : Type) : Type := {
  PoolGet : Pool -> bytes * Pool
}.

(** [BufferedEncoder.Reset] empties the buffer. *)
Definition BufferedEncoder_Reset (b : bytes) : bytes := [].

(** [bytes.Buffer.Truncate n] keeps the first [n] bytes.  (It panics when
    [n] exceeds the length; the list only passes a length the buffer had
    before the encoder appended to it.) *)
Definition Buffer_Truncate (n : nat) (b : bytes) : bytes := take n b.

(** Modelled from the spec: the msgpack [AggregatedEncoder] is not part of
    the sources at hand.  It wraps the current buffer; [EncodeRecord]
    appends one record to it; on failure the encoder enters a sticky error
    state in which later calls fail until [Reset] is called; [Reset]
    clears the error and starts encoding into the given buffer. *)
Record AggregatedEncoder : Type := mkAggregatedEncoder {
  Buffer : bytes;
  encErr : bool
}.

(** Modelled from the spec: [msgpack.NewAggregatedEncoder], a ready
    encoder on the given buffer. *)
Definition NewAggregatedEncoder (b : bytes) : AggregatedEncoder :=
  mkAggregatedEncoder b false.

(** Modelled from the spec: [AggregatedEncoder.Reset], which clears the
    error state and starts encoding into the given buffer. *)
Definition AggregatedEncoder_Reset (b : bytes) (enc : AggregatedEncoder)
  : AggregatedEncoder :=
  mkAggregatedEncoder b false.

(** Modelled from the spec: [EncodeChunkedMetricWithPolicy], the
    [EncodeRecord] of the design.  A call in the error state fails and
    writes nothing; otherwise the bytes of the format are appended, and a
    failure of the format sets the error.  Returns the encoder after the
    call and whether the call failed. *)
Definition EncodeChunkedMetricWithPolicy `{RecordFormat Policy}
    (mp : ChunkedMetricWithPolicy Policy) (enc : AggregatedEncoder)
  : AggregatedEncoder * bool :=
  if encErr enc then (enc, true)
  else match encodeRecord mp with
       | Encoded r => (mkAggregatedEncoder (Buffer enc ++ r) false, false)
       | EncodeFailed p => (mkAggregatedEncoder (Buffer enc ++ p) true, true)
       end.

(** ** The metric list *)

(** Counters count their increments; the timer keeps what was recorded. *)
Record metricListMetrics : Type := mkMetrics {
  encodeErrors : Z;
  flushCollected : Z;
  flushSuccess : Z;
  flushErrors : Z;
  flushDuration : list Z
}.

Definition newMetricListMetrics : metricListMetrics := mkMetrics 0 0 0 0 [].

(** The part of [Options] the list reads. *)
Record Options (Sink Pool : Type) : Type := mkOptions {
  MinFlushInterval : Z;
  MaxFlushSize : Z;
  FlushHandler : Sink;
  BufferedEncoderPool_ : Pool
}.
Arguments mkOptions {Sink Pool} _ _ _ _.
Arguments MinFlushInterval {Sink Pool} _.
Arguments MaxFlushSize {Sink Pool} _.
Arguments FlushHandler {Sink Pool} _.
Arguments BufferedEncoderPool_ {Sink Pool} _.

(** A [*list.Element] of [container/list]: the handle is the identity of
    the node, [elemValue] its payload ([None] is the nil interface). *)
Record Element (Elem : Type) : Type := mkElement {
  elemId : nat;
  elemValue : option Elem
}.
Arguments mkElement {Elem} _ _.
Arguments elemId {Elem} _.
Arguments elemValue {Elem} _.

(** Calls on the collaborators, in the order the list makes them.
    [EvHandle buf cur] is [flushHandler.Handle] on a buffer holding [buf],
    made while the list's encoder writes into a buffer holding [cur]. *)
Inductive Event (Policy : Type) : Type :=
| EvConsume (h : nat) (alignedStartNanos : Z)
| EvElemClose (h : nat)
| EvEmit (mp : ChunkedMetricWithPolicy Policy)
| EvLogEncodeError (mp : ChunkedMetricWithPolicy Policy)
| EvHandle (buf cur : bytes)
| EvLogFlushError.
Arguments EvConsume {Policy} _ _.
Arguments EvElemClose {Policy} _.
Arguments EvEmit {Policy} _.
Arguments EvLogEncodeError {Policy} _.
Arguments EvHandle {Policy} _ _.
Arguments EvLogFlushError {Policy}.

Record metricList (Policy Elem Sink Pool : Type) : Type := mkMetricList {
  opts : Options Sink Pool;
  maxFlushSize : Z;
  flushHandler : Sink;
  encoderPool : Pool;
  resolution : Z;
  flushInterval : Z;
  aggregations : list (Element Elem);
  nextElem : nat;            (* allocation counter for list nodes *)
  encoder : AggregatedEncoder;
  toCollect : list nat;
  closed : bool;
  metrics : metricListMetrics;
  trace : list (Event Policy)
}.
Arguments mkMetricList {Policy Elem Sink Pool} _ _ _ _ _ _ _ _ _ _ _ _ _.
Arguments opts {Policy Elem Sink Pool} _.
Arguments maxFlushSize {Policy Elem Sink Pool} _.
Arguments flushHandler {Policy Elem Sink Pool} _.
Arguments encoderPool {Policy Elem Sink Pool} _.
Arguments resolution {Policy Elem Sink Pool} _.
Arguments flushInterval {Policy Elem Sink Pool} _.
Arguments aggregations {Policy Elem Sink Pool} _.
Arguments nextElem {Policy Elem Sink Pool} _.
Arguments encoder {Policy Elem Sink Pool} _.
Arguments toCollect {Policy Elem Sink Pool} _.
Arguments closed {Policy Elem Sink Pool} _.
Arguments metrics {Policy Elem Sink Pool} _.
Arguments trace {Policy Elem Sink Pool} _.

Section MetricList.
Context {Policy Elem Sink Pool : Type}.
Context `{!metricElem Policy Elem, !RecordFormat Policy,
          !Handler Sink, !BufferedEncoderPool Pool}.

Local Abbreviation mlist := (metricList Policy Elem Sink Pool).

(** Field updates. *)
Definition set_flushHandler (s : Sink) (l : mlist) : mlist :=
  mkMetricList (opts l) (maxFlushSize l) s (encoderPool l) (resolution l)
    (flushInterval l) (aggregations l) (nextElem l) (encoder l)
    (toCollect l) (closed l) (metrics l) (trace l).
Definition set_encoderPool (p : Pool) (l : mlist) : mlist :=
  mkMetricList (opts l) (maxFlushSize l) (flushHandler l) p (resolution l)
    (flushInterval l) (aggregations l) (nextElem l) (encoder l)
    (toCollect l) (closed l) (metrics l) (trace l).
Definition set_aggregations (a : list (Element Elem)) (l : mlist) : mlist :=
  mkMetricList (opts l) (maxFlushSize l) (flushHandler l) (encoderPool l)
    (resolution l) (flushInterval l) a (nextElem l) (encoder l)
    (toCollect l) (closed l) (metrics l) (trace l).
Definition set_nextElem (n : nat) (l : mlist) : mlist :=
  mkMetricList (opts l) (maxFlushSize l) (flushHandler l) (encoderPool l)
    (resolution l) (flushInterval l) (aggregations l) n (encoder l)
    (toCollect l) (closed l) (metrics l) (trace l).
Definition set_encoder (e : AggregatedEncoder) (l : mlist) : mlist :=
  mkMetricList (opts l) (maxFlushSize l) (flushHandler l) (encoderPool l)
    (resolution l) (flushInterval l) (aggregations l) (nextElem l) e
    (toCollect l) (closed l) (metrics l) (trace l).
Definition set_toCollect (c : list nat) (l : mlist) : mlist :=
  mkMetricList (opts l) (maxFlushSize l) (flushHandler l) (encoderPool l)
    (resolution l) (flushInterval l) (aggregations l) (nextElem l)
    (encoder l) c (closed l) (metrics l) (trace l).
Definition set_closed (b : bool) (l : mlist) : mlist :=
  mkMetricList (opts l) (maxFlushSize l) (flushHandler l) (encoderPool l)
    (resolution l) (flushInterval l) (aggregations l) (nextElem l)
    (encoder l) (toCollect l) b (metrics l) (trace l).
Definition set_metrics (m : metricListMetrics) (l : mlist) : mlist :=
  mkMetricList (opts l) (maxFlushSize l) (flushHandler l) (encoderPool l)
    (resolution l) (flushInterval l) (aggregations l) (nextElem l)
    (encoder l) (toCollect l) (closed l) m (trace l).
Definition log (ev : Event Policy) (l : mlist) : mlist :=
  mkMetricList (opts l) (maxFlushSize l) (flushHandler l) (encoderPool l)
    (resolution l) (flushInterval l) (aggregations l) (nextElem l)
    (encoder l) (toCollect l) (closed l) (metrics l) (trace l ++ [ev]).

Definition inc_encodeErrors (m : metricListMetrics) : metricListMetrics :=
  mkMetrics (encodeErrors m + 1) (flushCollected m) (flushSuccess m)
    (flushErrors m) (flushDuration m).
Definition inc_flushCollected (n : Z) (m : metricListMetrics) : metricListMetrics :=
  mkMetrics (encodeErrors m) (flushCollected m + n) (flushSuccess m)
    (flushErrors m) (flushDuration m).
Definition inc_flushSuccess (m : metricListMetrics) : metricListMetrics :=
  mkMetrics (encodeErrors m) (flushCollected m) (flushSuccess m + 1)
    (flushErrors m) (flushDuration m).
Definition inc_flushErrors (m : metricListMetrics) : metricListMetrics :=
  mkMetrics (encodeErrors m) (flushCollected m) (flushSuccess m)
    (flushErrors m + 1) (flushDuration m).
Definition record_flushDuration (d : Z) (m : metricListMetrics) : metricListMetrics :=
  mkMetrics (encodeErrors m) (flushCollected m) (flushSuccess m)
    (flushErrors m) (flushDuration m ++ [d]).

(** [newMetricList]: the flush interval is the resolution unless the
    resolution is below the minimum flush interval.  The first buffer is
    the one the pool hands out, as it is.  (Registration with the flush
    manager belongs to the registry's world, see [metricLists].) *)
Definition newMetricList (resolution : Z) (o : Options Sink Pool) : mlist :=
  let flushInterval := resolution in
  let flushInterval :=
    let minFlushInterval := MinFlushInterval o in
    if (flushInterval <? minFlushInterval)%Z then minFlushInterval
    else flushInterval in
  let encoderPool := BufferedEncoderPool_ o in
  let '(buf, encoderPool') := PoolGet encoderPool in
  mkMetricList o (MaxFlushSize o) (FlushHandler o) encoderPool'
    resolution flushInterval [] 0 (NewAggregatedEncoder buf) [] false
    newMetricListMetrics [].

Definition FlushInterval (l : mlist) : Z := flushInterval l.
Definition Resolution (l : mlist) : Z := resolution l.
Definition Len (l : mlist) : nat := length (aggregations l).

(** [PushBack]: the pair is Go's [(elem, err)]. *)
Definition PushBack (value : option Elem) (l : mlist)
  : mlist * (option nat * option error) :=
  if closed l then (l, (None, Some errListClosed))
  else
    let elem := nextElem l in
    let l := set_aggregations (aggregations l ++ [mkElement elem value])
               (set_nextElem (S elem) l) in
    (l, (Some elem, None)).

Definition Close (l : mlist) : mlist :=
  if closed l then l else set_closed true l.

(** [flushHandler.Handle] on the detached buffer [buf], with the two
    counters. *)
Definition handOff (buf : bytes) (l : mlist) : mlist :=
  let l := log (EvHandle buf (Buffer (encoder l))) l in
  let '(sink, err) := Handle (flushHandler l) buf in
  let l := set_flushHandler sink l in
  if err then set_metrics (inc_flushErrors (metrics l)) (log EvLogFlushError l)
  else set_metrics (inc_flushSuccess (metrics l)) l.

Definition processAggregatedMetric
    (idPrefix id idSuffix : bytes) (timeNanos value : Z) (policy : Policy)
    (l : mlist) : mlist :=
  let buffer := Buffer (encoder l) in
  let sizeBefore := length buffer in
  let mp := mkChunkedMetricWithPolicy
              (mkChunkedMetric (mkChunkedID idPrefix id idSuffix) timeNanos value)
              policy in
  let l := log (EvEmit mp) l in
  let '(enc, err) := EncodeChunkedMetricWithPolicy mp (encoder l) in
  let l := set_encoder enc l in
  if err then
    let l := log (EvLogEncodeError mp) l in
    let l := set_metrics (inc_encodeErrors (metrics l)) l in
    let buffer := Buffer_Truncate sizeBefore (Buffer (encoder l)) in
    (* Clear out the encoder error. *)
    set_encoder (AggregatedEncoder_Reset buffer (encoder l)) l
  else
    let buffer := Buffer (encoder l) in
    let sizeAfter := length buffer in
    (* If the buffer size is not big enough, do nothing. *)
    if (Z.of_nat sizeAfter <? maxFlushSize l)%Z then l
    else
      let '(encoder2, pool) := PoolGet (encoderPool l) in
      let l := set_encoderPool pool l in
      let encoder2 := BufferedEncoder_Reset encoder2 in
      let data := buffer in
      let encoder2 := encoder2 ++ drop sizeBefore (take sizeAfter data) in
      let l := set_encoder (AggregatedEncoder_Reset encoder2 (encoder l)) l in
      let buffer := Buffer_Truncate sizeBefore buffer in
      handOff buffer l.

Definition aggMetricFn (e : Emission Policy) (l : mlist) : mlist :=
  processAggregatedMetric (em_idPrefix e) (em_id e) (em_idSuffix e)
    (em_timeNanos e) (em_value e) (em_policy e) l.

(** The callback applied to the emissions of one [Consume], in order. *)
Definition emitAll (es : list (Emission Policy)) (l : mlist) : mlist :=
  foldl (fun l e => aggMetricFn e l) l es.

(** The loop of [Flush] over the nodes from the front.  [None] is a
    panic: the type assertion [e.Value.(metricElem)] on a nil payload.
    The nodes are returned as the loop leaves them. *)
Fixpoint flushLoop (alignedStartNanos : Z) (es : list (Element Elem))
    (l : mlist) : option (list (Element Elem) * mlist) :=
  match es with
  | [] => Some ([], l)
  | e :: es' =>
    match elemValue e with
    | None => None
    | Some elem =>
      let l := log (EvConsume (elemId e) alignedStartNanos) l in
      let '(elem', ems, done) := Consume elem alignedStartNanos in
      let l := emitAll ems l in
      let '(e', l) :=
        if done then
          (mkElement (elemId e) None,
           set_toCollect (toCollect l ++ [elemId e])
             (log (EvElemClose (elemId e)) l))
        else (mkElement (elemId e) (Some elem'), l) in
      match flushLoop alignedStartNanos es' l with
      | None => None
      | Some (rest, l) => Some (e' :: rest, l)
      end
    end
  end.

(** [list.Remove]: unlink the node with this identity. *)
Definition Remove (a : list (Element Elem)) (h : nat) : list (Element Elem) :=
  filter (fun e => elemId e ≠ h) a.

Definition alignedStart (start : Z) (l : mlist) : Z :=
  Time_Truncate start (resolution l).

(** Reset of the scratch slice and the consuming loop. *)
Definition flushConsume (start : Z) (l : mlist) : option mlist :=
  let alignedStartNanos := alignedStart start l in
  let l := set_toCollect [] l in
  match flushLoop alignedStartNanos (aggregations l) l with
  | None => None
  | Some (aggs, l) => Some (set_aggregations aggs l)
  end.

(** Flush remaining bytes in the buffer. *)
Definition flushRemaining (l : mlist) : mlist :=
  let encoder_ := Buffer (encoder l) in
  if (0 <? length encoder_)%nat then
    let '(newEncoder, pool) := PoolGet (encoderPool l) in
    let l := set_encoderPool pool l in
    let newEncoder := BufferedEncoder_Reset newEncoder in
    let l := set_encoder (AggregatedEncoder_Reset newEncoder (encoder l)) l in
    handOff encoder_ l
  else l.

(** Collect tombstoned elements. *)
Definition flushCollect (start finish : Z) (l : mlist) : mlist :=
  let l := set_aggregations (foldl Remove (aggregations l) (toCollect l)) l in
  let numCollected := length (toCollect l) in
  let m := inc_flushCollected (Z.of_nat numCollected) (metrics l) in
  set_metrics (record_flushDuration (Time_Sub finish start) m) l.

(** [Flush]; [start] and [finish] are the two readings of [nowFn]. *)
Definition Flush (start finish : Z) (l : mlist) : option mlist :=
  match flushConsume start l with
  | None => None
  | Some l => Some (flushCollect start finish (flushRemaining l))
  end.

End MetricList.

(** ** Reading the trace *)

Section Trace.
Context {Policy : Type} `{!RecordFormat Policy}.

(** The buffers handed to the sink, in order. *)
Definition handed (tr : list (Event Policy)) : list bytes :=
  omap (fun ev => match ev with EvHandle buf _ => Some buf | _ => None end) tr.

(** What the list's own encoder buffer held at each hand-off. *)
Definition currentAtHandOff (tr : list (Event Policy)) : list bytes :=
  omap (fun ev => match ev with EvHandle _ cur => Some cur | _ => None end) tr.

(** The records passed to the encoder, in order. *)
Definition emitted (tr : list (Event Policy)) : list (ChunkedMetricWithPolicy Policy) :=
  omap (fun ev => match ev with EvEmit mp => Some mp | _ => None end) tr.

(** The handles [Consume] was called on, and those whose element was closed. *)
Definition consumed (tr : list (Event Policy)) : list nat :=
  omap (fun ev => match ev with EvConsume h _ => Some h | _ => None end) tr.

Definition closedElems (tr : list (Event Policy)) : list nat :=
  omap (fun ev => match ev with EvElemClose h => Some h | _ => None end) tr.

(** The boundaries [Consume] was called with, and the flush errors logged. *)
Definition boundaries (tr : list (Event Policy)) : list Z :=
  omap (fun ev => match ev with EvConsume _ B => Some B | _ => None end) tr.

Definition flushErrorLogs (tr : list (Event Policy)) : list unit :=
  omap (fun ev => match ev with EvLogFlushError => Some tt | _ => None end) tr.

(** The bytes of the records whose encoding succeeds, in order. *)
Definition okRecords (mps : list (ChunkedMetricWithPolicy Policy)) : list bytes :=
  omap (fun mp => match encodeRecord mp with
                  | Encoded r => Some r
                  | EncodeFailed _ => None
                  end) mps.

(** A buffer made of whole records only. *)
Definition isRecord (r : bytes) : Prop :=
  exists mp, encodeRecord mp = Encoded r.

Definition wholeRecords (b : bytes) : Prop :=
  exists rs, Forall isRecord rs /\ b = concat rs.

End Trace.

Definition toRecord {Policy : Type} (e : Emission Policy)
  : ChunkedMetricWithPolicy Policy :=
  mkChunkedMetricWithPolicy
    (mkChunkedMetric (mkChunkedID (em_idPrefix e) (em_id e) (em_idSuffix e))
       (em_timeNanos e) (em_value e))
    (em_policy e).

(** ** Runs of one list *)

Section Runs.
Context {Policy Elem Sink Pool : Type}.
Context `{!metricElem Policy Elem, !RecordFormat Policy,
          !Handler Sink, !BufferedEncoderPool Pool}.

Local Abbreviation mlist := (metricList Policy Elem Sink Pool).

Inductive Op : Type :=
| OpPushBack (value : option Elem)
| OpClose
| OpFlush (start finish : Z).

Definition step (op : Op) (l : mlist) : option mlist :=
  match op with
  | OpPushBack v => Some (fst (PushBack v l))
  | OpClose => Some (Close l)
  | OpFlush start finish => Flush start finish l
  end.

Fixpoint run (ops : list Op) (l : mlist) : option mlist :=
  match ops with
  | [] => Some l
  | op :: ops' =>
    match step op l with
    | None => None
    | Some l' => run ops' l'
    end
  end.

(** The verdict of [Consume] on a node at a boundary, and the node as the
    loop of [Flush] leaves it; [None] when the payload is nil. *)
Definition verdict (B : Z) (e : Element Elem) : option bool :=
  match elemValue e with
  | None => None
  | Some x => Some (snd (Consume x B))
  end.

Definition finished (B : Z) (e : Element Elem) : bool :=
  match verdict B e with Some true => true | _ => false end.

Definition afterConsume (B : Z) (e : Element Elem) : Element Elem :=
  match elemValue e with
  | None => e
  | Some x =>
    let '(x', _, done) := Consume x B in
    mkElement (elemId e) (if done then None else Some x')
  end.

(** The emissions of one pass over the nodes. *)
Definition emissionsOf (B : Z) (es : list (Element Elem)) : list (Emission Policy) :=
  flat_map (fun e => match elemValue e with
                     | None => []
                     | Some x => snd (fst (Consume x B))
                     end) es.

(** The list after the loop of [Flush] has dealt with one node whose
    payload made the emissions [ems] and gave the verdict [done]. *)
Definition afterElem (B : Z) (h : nat) (ems : list (Emission Policy))
    (done : bool) (l : mlist) : mlist :=
  let l := emitAll ems (log (EvConsume h B) l) in
  if done then set_toCollect (toCollect l ++ [h]) (log (EvElemClose h) l)
  else l.

(** All bytes that left the encoder or still wait in its buffer, and the
    bytes of all records the encoder accepted. *)
Definition sent (l : mlist) : bytes :=
  concat (handed (trace l)) ++ Buffer (encoder l).


(** The encoder carries no error, and its buffer and every buffer handed
    to the sink so far are made of whole records. *)
Definition wholeInv (l : mlist) : Prop :=
  encErr (encoder l) = false /\
  wholeRecords (Buffer (encoder l)) /\
  Forall wholeRecords (handed (trace l)).


(** Handles are distinct and below the allocation counter. *)
Definition distinctHandles (l : mlist) : Prop :=
  NoDup (elemId <$> aggregations l) /\
  Forall (fun e => elemId e < nextElem l) (aggregations l).

(** No operation of the run pushes a nil payload. *)
Definition pushesNonNil (ops : list Op) : Prop :=
  Forall (fun op => match op with OpPushBack None => False | _ => True end) ops.

(** A buffer that is empty, shorter than the flush size, or one record. *)
Definition boundedBuffer (max : Z) (b : bytes) : Prop :=
  b = [] \/ (Z.of_nat (length b) < max)%Z \/ isRecord b.

(** The encoder carries no error, and its buffer and the buffers handed
    to the sink are bounded for the list's flush size. *)
Definition boundedInv (l : mlist) : Prop :=
  encErr (encoder l) = false /\
  boundedBuffer (maxFlushSize l) (Buffer (encoder l)) /\
  Forall (boundedBuffer (maxFlushSize l)) (handed (trace l)).

(** The counters agree with the trace: one success or error per buffer
    handed to the sink, one logged flush error per counted one, one
    encode error per rejected record. *)
Definition accounted (l : mlist) : Prop :=
  encErr (encoder l) = false /\
  (flushSuccess (metrics l) + flushErrors (metrics l))%Z =
    Z.of_nat (length (handed (trace l))) /\
  flushErrors (metrics l) = Z.of_nat (length (flushErrorLogs (trace l))) /\
  (encodeErrors (metrics l) + Z.of_nat (length (okRecords (emitted (trace l)))))%Z =
    Z.of_nat (length (emitted (trace l))).

(** Two states with the same encoder, trace, flush size and error and
    hand-off counters. *)
Definition sameView (l l' : mlist) : Prop :=
  encoder l' = encoder l /\ trace l' = trace l /\
  maxFlushSize l' = maxFlushSize l /\
  encodeErrors (metrics l') = encodeErrors (metrics l) /\
  flushSuccess (metrics l') = flushSuccess (metrics l) /\
  flushErrors (metrics l') = flushErrors (metrics l).

(** What a rejected record leaves alone: the encoder, the sink and its
    counters, and what was handed over. *)
Definition untouched (l l' : mlist) : Prop :=
  encoder l' = encoder l /\
  handed (trace l') = handed (trace l) /\
  flushSuccess (metrics l') = flushSuccess (metrics l) /\
  flushErrors (metrics l') = flushErrors (metrics l) /\
  flushHandler l' = flushHandler l.

(** Two pairs of states: after the step both encoders and flush sizes
    agree, and the same buffers were handed to the sink on both sides. *)
Definition sameEffect (l1 l2 l1' l2' : mlist) : Prop :=
  encoder l1' = encoder l2' /\
  maxFlushSize l1' = maxFlushSize l2' /\
  exists delta : list bytes,
    handed (trace l1') = handed (trace l1) ++ delta /\
    handed (trace l2') = handed (trace l2) ++ delta.

(** What a flush works on, the sink and the pool left out. *)
Definition flushData (l : mlist)
  : Z * Z * AggregatedEncoder * list (Element Elem) :=
  (maxFlushSize l, resolution l, encoder l, aggregations l).

(** The configuration of a list: the fields set at construction. *)
Definition config (l : mlist) : Options Sink Pool * Z * Z * Z :=
  (opts l, maxFlushSize l, resolution l, flushInterval l).

(** [Close] applied [n] times. *)
Fixpoint closeTimes (n : nat) (l : mlist) : mlist :=
  match n with
  | O => l
  | S n' => closeTimes n' (Close l)
  end.

End Runs.

(** ** The registry of lists

    [metricLists.lists] maps a resolution to a pointer; the lists live in
    a store, addressed by their position in it, next to the flush
    manager's registrations. *)

Record Store (Policy Elem Sink Pool : Type) : Type := mkStore {
  heap : list (metricList Policy Elem Sink Pool);
  registered : list nat
}.
Arguments mkStore {Policy Elem Sink Pool} _ _.
Arguments heap {Policy Elem Sink Pool} _.
Arguments registered {Policy Elem Sink Pool} _.

Record metricLists (Policy Elem Sink Pool : Type) : Type := mkMetricLists {
  ls_opts : Options Sink Pool;
  newMetricListFn : Z -> Options Sink Pool -> metricList Policy Elem Sink Pool;
  ls_closed : bool;
  lists : gmap Z nat
}.
Arguments mkMetricLists {Policy Elem Sink Pool} _ _ _ _.
Arguments ls_opts {Policy Elem Sink Pool} _.
Arguments newMetricListFn {Policy Elem Sink Pool} _.
Arguments ls_closed {Policy Elem Sink Pool} _.
Arguments lists {Policy Elem Sink Pool} _.

(** The list's [Len], under a name that the registry's [Len] does not hide. *)
Abbreviation metricList_Len := Len.

Module Lists.
Section Registry.
Context {Policy Elem Sink Pool : Type}.
Context `{!metricElem Policy Elem, !RecordFormat Policy,
          !Handler Sink, !BufferedEncoderPool Pool}.

Local Abbreviation mlists := (metricLists Policy Elem Sink Pool).
Local Abbreviation store := (Store Policy Elem Sink Pool).

Definition newMetricLists (o : Options Sink Pool) : mlists :=
  mkMetricLists o newMetricList false ∅.

Definition Len (l : mlists) : nat := size (lists l).

(** [&metricList{...}] followed by [flushMgr.Register(l)]. *)
Definition alloc (ml : metricList Policy Elem Sink Pool) (σ : store) : nat * store :=
  let p := length (heap σ) in
  (p, mkStore (heap σ ++ [ml]) (registered σ ++ [p])).

(** [FindOrCreate]: the look-up under the read lock, then again under the
    write lock.  The result is Go's [(list, err)]. *)
Definition FindOrCreate (resolution : Z) (l : mlists) (σ : store)
  : mlists * store * (option nat * option error) :=
  if ls_closed l then (l, σ, (None, Some errListsClosed))
  else match lists l !! resolution with
  | Some list => (l, σ, (Some list, None))
  | None =>
    if ls_closed l then (l, σ, (None, Some errListsClosed))
    else match lists l !! resolution with
    | Some list => (l, σ, (Some list, None))
    | None =>
      let '(list, σ) := alloc (newMetricListFn l resolution (ls_opts l)) σ in
      (mkMetricLists (ls_opts l) (newMetricListFn l) (ls_closed l)
         (<[resolution := list]> (lists l)), σ, (Some list, None))
    end
  end.

(** [list.Close()] through the pointer. *)
Definition closeAt (σ : store) (p : nat) : store :=
  mkStore (alter Close p (heap σ)) (registered σ).

(** [Close]: the range over the map visits each entry once, in an order
    the language leaves open; the order of [map_to_list] is taken. *)
Definition Close (l : mlists) (σ : store) : mlists * store :=
  if ls_closed l then (l, σ)
  else
    (mkMetricLists (ls_opts l) (newMetricListFn l) true (lists l),
     foldl closeAt σ (snd <$> map_to_list (lists l))).

(** [Close] applied [n] times. *)
Fixpoint closeTimes (n : nat) (l : mlists) (σ : store) : mlists * store :=
  match n with
  | O => (l, σ)
  | S n' => let '(l', σ') := Close l σ in closeTimes n' l' σ'
  end.

(** A sequence of [FindOrCreate] calls, results dropped. *)
Fixpoint findOrCreateAll (rs : list Z) (l : mlists) (σ : store) : mlists * store :=
  match rs with
  | [] => (l, σ)
  | r :: rs' =>
    let '(l', σ', _) := FindOrCreate r l σ in findOrCreateAll rs' l' σ'
  end.

(** [Tick]: the sizes of the lists, keyed by what each list reports as
    its resolution.  The entries are visited in the order of
    [map_to_list]; a pointer outside the store has no counterpart in the
    program and gives no result. *)
Definition tickOne (σ : store) (acc : option (gmap Z nat)) (p : nat)
  : option (gmap Z nat) :=
  match acc, heap σ !! p with
  | Some activeElems, Some list =>
    let resolution := Resolution list in
    let numElems := metricList_Len list in
    Some (<[resolution := numElems]> activeElems)
  | _, _ => None
  end.

Definition Tick (l : mlists) (σ : store) : option (gmap Z nat) :=
  foldl (tickOne σ) (Some ∅) (snd <$> map_to_list (lists l)).

(** Use of the registry and of the lists it hands out: a registry call,
    or an operation on the list behind a pointer. *)
Inductive RegOp : Type :=
| RFindOrCreate (resolution : Z)
| RClose
| ROnList (p : nat) (op : @Op Elem).

Definition regStep (op : RegOp) (l : mlists) (σ : store)
  : option (mlists * store) :=
  match op with
  | RFindOrCreate R =>
    let '(l', σ', _) := FindOrCreate R l σ in Some (l', σ')
  | RClose => Some (Close l σ)
  | ROnList p op =>
    match heap σ !! p with
    | None => None
    | Some list =>
      match step op list with
      | None => None
      | Some list' => Some (l, mkStore (<[p := list']> (heap σ)) (registered σ))
      end
    end
  end.

Fixpoint regRun (ops : list RegOp) (l : mlists) (σ : store)
  : option (mlists * store) :=
  match ops with
  | [] => Some (l, σ)
  | op :: ops' =>
    match regStep op l σ with
    | None => None
    | Some (l', σ') => regRun ops' l' σ'
    end
  end.

(** The registry makes its lists with [newMetricList]; every binding
    leads to a list of the store with that resolution; every list of the
    store is registered with the flush manager once, in creation order;
    once the registry is closed, so are its lists. *)
Definition registryOk (l : mlists) (σ : store) : Prop :=
  newMetricListFn l = newMetricList /\
  registered σ = seq 0 (length (heap σ)) /\
  forall R p, lists l !! R = Some p ->
    exists list, heap σ !! p = Some list /\ Resolution list = R /\
                 (ls_closed l = true -> closed list = true).

End Registry.
End Lists.

(** ** The pool of finalizer slices
    ([src/m3x/context/finalizers_arraypool_gen.go])

    A slice is kept as the elements of its underlying array from the
    slice's first element on, [cap] of them, and its length.  A
    [resource.Finalizer] is an interface value: [None] is nil. *)

Record slice (A : Type) : Type := mkSlice {
  backing : list A;
  slen : nat
}.
Arguments mkSlice {A} _ _.
Arguments backing {A} _.
Arguments slen {A} _.

(** [pool.ObjectPool], which lives in another package: [Init] takes the
    allocator (here what a call of it returns, [None] when the call
    panics), [Get] and [Put] move objects. *)
Class ObjectPool (P A : Type) : Type := {
  pool_New : P;
  pool_Init : P -> option A -> P;
  pool_Get : P -> A * P;
  pool_Put : P -> A -> P
}.

Module Finalizers.
Section Pool.
Context {F P : Type} `{!ObjectPool P (slice (option F))}.

Local Abbreviation finalizers := (slice (option F)).

Definition cap (elems : finalizers) : nat := length (backing elems).

(** The elements an index can reach. *)
Definition visible (elems : finalizers) : list (option F) :=
  take (slen elems) (backing elems).

(** [make([]resource.Finalizer, len, cap)]; a negative size panics. *)
Definition make (len cap : Z) : option finalizers :=
  if (len <? 0)%Z || (cap <? len)%Z then None
  else Some (mkSlice (replicate (Z.to_nat cap) None) (Z.to_nat len)).

(** [for i := range elems { elems[i] = empty }] *)
Definition clear (elems : finalizers) : finalizers :=
  mkSlice (foldl (fun arr i => <[i := None]> arr) (backing elems)
             (seq 0 (slen elems)))
          (slen elems).

(** [elems[:n]]; panics unless [0 <= n <= cap(elems)]. *)
Definition reslice (elems : finalizers) (n : Z) : option finalizers :=
  if (n <? 0)%Z || (Z.of_nat (cap elems) <? n)%Z then None
  else Some (mkSlice (backing elems) (Z.to_nat n)).

Record finalizersArrayPoolOpts : Type := mkPoolOpts {
  Capacity : Z;
  MaxCapacity : Z;
  FinalizeFn : option (finalizers -> finalizers)
}.

Record finalizersArrPool : Type := mkPool {
  opts : finalizersArrayPoolOpts;
  pool : P
}.

Definition defaultFinalizersFinalizerFn (elems : finalizers) : finalizers :=
  let elems := clear elems in
  mkSlice (backing elems) 0.

Definition newFinalizersArrayPool (o : finalizersArrayPoolOpts)
  : finalizersArrPool :=
  let o :=
    match FinalizeFn o with
    | None => mkPoolOpts (Capacity o) (MaxCapacity o)
                (Some defaultFinalizersFinalizerFn)
    | Some _ => o
    end in
  mkPool o pool_New.

Definition Init (p : finalizersArrPool) : finalizersArrPool :=
  mkPool (opts p) (pool_Init (pool p) (make 0 (Capacity (opts p)))).

Definition Get (p : finalizersArrPool) : finalizers * finalizersArrPool :=
  let '(arr, pl) := pool_Get (pool p) in (arr, mkPool (opts p) pl).

(** [Put]; [None] is the panic of calling a nil [FinalizeFn]. *)
Definition Put (p : finalizersArrPool) (arr : finalizers)
  : option finalizersArrPool :=
  match FinalizeFn (opts p) with
  | None => None
  | Some finalize =>
    let arr := finalize arr in
    let max := MaxCapacity (opts p) in
    if (0 <? max)%Z && (max <? Z.of_nat (cap arr))%Z then Some p
    else Some (mkPool (opts p) (pool_Put (pool p) arr))
  end.

(** [grow]; [None] is a panic. *)
Definition grow (elems : finalizers) (n : Z) : option finalizers :=
  match (if (Z.of_nat (cap elems) <? n)%Z then make n n else Some elems) with
  | None => None
  | Some elems =>
    match reslice elems n with
    | None => None
    | Some elems => Some (clear elems)
    end
  end.

End Pool.
End Finalizers.

(** A pool that keeps what it is given on a stack. *)
Module FinalizerSample.

#[export] Instance stack_objects : ObjectPool (list (slice (option nat))) (slice (option nat)) := {
  pool_New := [];
  pool_Init p alloc := p;
  pool_Get p :=
    match p with
    | [] => (mkSlice [] 0, [])
    | s :: rest => (s, rest)
    end;
  pool_Put p s := s :: p
}.

Definition used : slice (option nat) :=
  mkSlice [Some 7; Some 8; Some 9; None] 2.

Definition poolOpts (max : Z) : @Finalizers.finalizersArrayPoolOpts nat :=
  Finalizers.mkPoolOpts 4 max None.

End FinalizerSample.

(** ** Concrete collaborators, for running the model

    A scripted element plays one step per [Consume]; a scripted sink
    answers with the next entry of its script ([true] is an error); the
    pool hands out its spare buffers, then fresh ones; the format writes
    the three parts of the id, and fails on a negative timestamp after
    writing the prefix. *)

Module Sample.

Record scripted : Type := Script {
  steps : list (list (Emission unit) * bool)
}.

#[export] Instance scripted_elem : metricElem unit scripted := {
  Consume x _ :=
    match steps x with
    | [] => (x, [], true)
    | (ems, done) :: rest => (Script rest, ems, done)
    end
}.

Record scriptedSink : Type := SinkScript {
  answers : list bool
}.

#[export] Instance scripted_handler : Handler scriptedSink := {
  Handle s _ :=
    match answers s with
    | [] => (s, false)
    | err :: rest => (SinkScript rest, err)
    end
}.

Record stackPool : Type := StackPool {
  spare : list bytes
}.

#[export] Instance stack_pool : BufferedEncoderPool stackPool := {
  PoolGet p :=
    match spare p with
    | [] => ([], p)
    | b :: rest => (b, StackPool rest)
    end
}.

#[export] Instance id_format : RecordFormat unit := {
  encodeRecord mp :=
    let m := ChunkedMetric_ mp in
    let i := ChunkedID_ m in
    if (TimeNanos m <? 0)%Z then EncodeFailed (Prefix i)
    else Encoded (Prefix i ++ Data i ++ Suffix i)
}.

Definition sampleOpts (maxSize : Z) (answers : list bool) (spare : list bytes)
  : Options scriptedSink stackPool :=
  mkOptions 1000000000 maxSize (SinkScript answers) (StackPool spare).

Definition sampleList (maxSize : Z) (answers : list bool) (spare : list bytes)
  : metricList unit scripted scriptedSink stackPool :=
  newMetricList 10000000000 (sampleOpts maxSize answers spare).

(** An emission whose record is the given id bytes. *)
Definition emit (id : bytes) (timeNanos : Z) : Emission unit :=
  mkEmission [] id [] timeNanos 0 tt.

(** An emission the format rejects after writing one byte. *)
Definition failing (id : bytes) : Emission unit :=
  mkEmission [xff] id [] (-1) 0 tt.

Definition a1 : bytes := [x01].
Definition b2 : bytes := [x02; x03].
Definition c3 : bytes := [x04; x05; x06].

(** [elemA] emits [a1], a rejected record and [c3], and is finished;
    [elemB] emits [b2] and stays for another round. *)
Definition elemA : scripted := Script [([emit a1 0; failing b2; emit c3 0], true)].
Definition elemB : scripted := Script [([emit b2 0], false); ([], true)].

(** Flush size 2, a sink whose first answer is an error, a pool whose
    second buffer comes back dirty. *)
Definition opts2 : Options scriptedSink stackPool :=
  sampleOpts 2 [true] [[]; [x09]].

Definition fresh : metricList unit scripted scriptedSink stackPool :=
  newMetricList 10000000000 opts2.

Definition pushes : list (@Op scripted) :=
  [OpPushBack (Some elemA); OpPushBack (Some elemB)].

Definition loaded : metricList unit scripted scriptedSink stackPool :=
  (PushBack (Some elemB) (PushBack (Some elemA) fresh).1).1.

(** The buffer holds [a1]. *)
Definition oneByte : metricList unit scripted scriptedSink stackPool :=
  aggMetricFn (emit a1 0) fresh.

(** A nil payload at the head of the list. *)
Definition nilHead : metricList unit scripted scriptedSink stackPool :=
  (PushBack (Some elemB) (PushBack None fresh).1).1.

(** The scenarios of the design's test plan with a flush size of 4096:
    one element emitting three records and finishing; the same with the
    middle record rejected; a sink that fails once. *)
Definition elemABC : scripted :=
  Script [([emit a1 0; emit b2 0; emit c3 0], true)].

Definition roomy (answers : list bool) (x : scripted)
  : metricList unit scripted scriptedSink stackPool :=
  (PushBack (Some x) (sampleList 4096 answers [])).1.

(** An element whose records are all rejected. *)
Definition elemRejected : scripted :=
  Script [([failing a1; failing b2], false)].

(** The list [loaded] again, with a sink that never fails and another
    pool. *)
Definition loadedOk : metricList unit scripted scriptedSink stackPool :=
  (PushBack (Some elemB)
     (PushBack (Some elemA) (sampleList 2 [] [[]; [x01; x02]; [x03]])).1).1.

(** Two lists asked for (one twice), an element pushed on the first and
    flushed, then the sizes read. *)
Definition regOps : list (@Lists.RegOp scripted) :=
  [Lists.RFindOrCreate 10; Lists.RFindOrCreate 60; Lists.RFindOrCreate 10;
   Lists.ROnList 0 (OpPushBack (Some elemB));
   Lists.ROnList 0 (OpPushBack (Some elemA));
   Lists.ROnList 0 (OpFlush 25 26)].

Definition registry : metricLists unit scripted scriptedSink stackPool :=
  Lists.newMetricLists opts2.

Definition emptyStore : Store unit scripted scriptedSink stackPool :=
  mkStore [] [].

End Sample.

(** * Properties *)

(** ** Fields that no operation of a list writes *)

Section ListFacts.
Context {Policy Elem Sink Pool : Type}.
Context `{!metricElem Policy Elem, !RecordFormat Policy,
          !Handler Sink, !BufferedEncoderPool Pool}.

Local Abbreviation mlist := (metricList Policy Elem Sink Pool).

Lemma handOff_frame (buf : bytes) (l : mlist) :
  config (handOff buf l) = config l /\
  closed (handOff buf l) = closed l /\
  aggregations (handOff buf l) = aggregations l /\
  toCollect (handOff buf l) = toCollect l /\
  nextElem (handOff buf l) = nextElem l /\
  encoder (handOff buf l) = encoder l.
Proof.
  unfold handOff; cbn.
  destruct (Handle (flushHandler l) buf) as [s [|]]; cbn; repeat split.
Qed.

Lemma processAggregatedMetric_frame p i s t v pol (l : mlist) :
  let l' := processAggregatedMetric p i s t v pol l in
  config l' = config l /\ closed l' = closed l /\
  aggregations l' = aggregations l /\ toCollect l' = toCollect l /\
  nextElem l' = nextElem l.
Proof.
  unfold processAggregatedMetric; cbn.
  destruct (EncodeChunkedMetricWithPolicy _ _) as [enc [|]]; cbn;
    [repeat split|].
  case_match; cbn; [repeat split|].
  destruct (PoolGet (encoderPool l)) as [b pool]; cbn.
  match goal with |- context [handOff ?b ?x] =>
    destruct (handOff_frame b x) as (-> & -> & -> & -> & -> & _) end.
  cbn; repeat split.
Qed.

Lemma emitAll_cons (e : Emission Policy) ems (l : mlist) :
  emitAll (e :: ems) l = emitAll ems (aggMetricFn e l).
Proof. reflexivity. Qed.

Lemma emitAll_frame (ems : list (Emission Policy)) (l : mlist) :
  config (emitAll ems l) = config l /\ closed (emitAll ems l) = closed l /\
  aggregations (emitAll ems l) = aggregations l /\
  toCollect (emitAll ems l) = toCollect l /\
  nextElem (emitAll ems l) = nextElem l.
Proof.
  revert l; induction ems as [|e ems IH]; intros l; [repeat split|].
  rewrite emitAll_cons.
  destruct (IH (aggMetricFn e l)) as (-> & -> & -> & -> & ->).
  apply processAggregatedMetric_frame.
Qed.

Lemma flushLoop_frame B (es es' : list (Element Elem)) (l l' : mlist) :
  flushLoop B es l = Some (es', l') ->
  config l' = config l /\ closed l' = closed l /\ nextElem l' = nextElem l.
Proof.
  revert es' l; induction es as [|e es IH]; intros es' l; cbn.
  - intros [= <- <-]; auto.
  - destruct (elemValue e) as [x|]; [|discriminate].
    destruct (Consume x B) as [[x' ems] done].
    match goal with |- context [emitAll ems ?l0] =>
      destruct (emitAll_frame ems l0) as (Hc & Hcl & _ & _ & Hn) end.
    destruct done; cbn;
      (destruct (flushLoop B es _) as [[rest l1]|] eqn:Hrec; [|discriminate]);
      intros [= <- <-]; apply IH in Hrec as (-> & -> & ->); cbn;
      rewrite ?Hc, ?Hcl, ?Hn; auto.
Qed.

Lemma flushRemaining_frame (l : mlist) :
  config (flushRemaining l) = config l /\
  closed (flushRemaining l) = closed l /\
  aggregations (flushRemaining l) = aggregations l /\
  toCollect (flushRemaining l) = toCollect l /\
  nextElem (flushRemaining l) = nextElem l.
Proof.
  unfold flushRemaining. case_match; [|repeat split].
  destruct (PoolGet (encoderPool l)) as [b pool]; cbn.
  match goal with |- context [handOff ?b ?x] =>
    destruct (handOff_frame b x) as (-> & -> & -> & -> & -> & _) end.
  cbn; repeat split.
Qed.

Lemma Flush_frame start finish (l l' : mlist) :
  Flush start finish l = Some l' ->
  config l' = config l /\ closed l' = closed l /\ nextElem l' = nextElem l.
Proof.
  unfold Flush, flushConsume.
  destruct (flushLoop _ _ _) as [[aggs l1]|] eqn:Hloop; [|discriminate].
  intros [= <-]. apply flushLoop_frame in Hloop as (Hc & Hcl & Hn).
  destruct (flushRemaining_frame (set_aggregations aggs l1))
    as (Hc' & Hcl' & _ & _ & Hn').
  unfold flushCollect, config in *; cbn in *.
  rewrite Hcl', Hn'. injection Hc' as -> -> -> ->. auto.
Qed.

Lemma step_config (op : Op) (l l' : mlist) :
  step op l = Some l' -> config l' = config l.
Proof.
  destruct op as [v| |s f]; cbn.
  - intros [= <-]. unfold PushBack. destruct (closed l); reflexivity.
  - intros [= <-]. unfold Close. destruct (closed l); reflexivity.
  - intros Hf. apply Flush_frame in Hf. tauto.
Qed.

Lemma run_config (ops : list Op) (l l' : mlist) :
  run ops l = Some l' -> config l' = config l.
Proof.
  revert l; induction ops as [|op ops IH]; intros l; cbn.
  - intros [= <-]; reflexivity.
  - destruct (step op l) as [l1|] eqn:Hs; [|discriminate].
    intros Hr. rewrite (IH _ Hr). eapply step_config; eassumption.
Qed.

Lemma step_closed (op : Op) (l l' : mlist) :
  step op l = Some l' -> closed l = true -> closed l' = true.
Proof.
  destruct op as [v| |s f]; cbn.
  - intros [= <-] Hc. unfold PushBack. rewrite Hc. exact Hc.
  - intros [= <-] Hc. unfold Close. rewrite Hc. exact Hc.
  - intros Hf Hc. apply Flush_frame in Hf as (_ & -> & _). exact Hc.
Qed.

Lemma run_closed (ops : list Op) (l l' : mlist) :
  run ops l = Some l' -> closed l = true -> closed l' = true.
Proof.
  revert l; induction ops as [|op ops IH]; intros l; cbn.
  - intros [= <-]; auto.
  - destruct (step op l) as [l1|] eqn:Hs; [|discriminate].
    intros Hr Hc. eapply IH; [eassumption|]. eapply step_closed; eassumption.
Qed.

Lemma Close_closed (l : mlist) : closed (Close l) = true.
Proof. unfold Close. destruct (closed l) eqn:E; [exact E|reflexivity]. Qed.

Lemma Close_idemp (l : mlist) : Close (Close l) = Close l.
Proof. unfold Close at 1. rewrite Close_closed. reflexivity. Qed.

End ListFacts.

(** ** Construction, [PushBack] and [Close] *)

Section ListApi.
Context {Policy Elem Sink Pool : Type}.
Context `{!metricElem Policy Elem, !RecordFormat Policy,
          !Handler Sink, !BufferedEncoderPool Pool}.

Local Abbreviation mlist := (metricList Policy Elem Sink Pool).

Lemma newMetricList_config (R : Z) (o : Options Sink Pool) :
  config (newMetricList R o : mlist) =
  (o, MaxFlushSize o, R, if (R <? MinFlushInterval o)%Z then MinFlushInterval o else R).
Proof.
  unfold newMetricList. destruct (PoolGet (BufferedEncoderPool_ o)); reflexivity.
Qed.

(** C7: the list built by [newMetricList R o] has a flush interval equal
    to the larger of [R] and the minimum flush interval of the options,
    and the equality (hence the lower bound) holds in every state the
    list reaches afterwards. *)
Theorem flushInterval_is_max (R : Z) (o : Options Sink Pool) :
  FlushInterval (newMetricList R o : mlist) = Z.max R (MinFlushInterval o) /\
  forall (ops : list Op) (l : mlist),
    run ops (newMetricList R o) = Some l ->
    Resolution l = R /\ opts l = o /\
    FlushInterval l = Z.max (Resolution l) (MinFlushInterval (opts l)) /\
    (Z.max (Resolution l) (MinFlushInterval (opts l)) <= FlushInterval l)%Z.
Proof.
  assert (Hmax : (if (R <? MinFlushInterval o)%Z then MinFlushInterval o else R)
                 = Z.max R (MinFlushInterval o)).
  { destruct (Z.ltb_spec R (MinFlushInterval o)); lia. }
  pose proof (newMetricList_config R o) as Hnew. rewrite Hmax in Hnew.
  split.
  - unfold config in Hnew. unfold FlushInterval. congruence.
  - intros ops l Hrun. apply run_config in Hrun. rewrite Hnew in Hrun.
    unfold config in Hrun. injection Hrun as Ho Hm Hr Hf.
    unfold FlushInterval, Resolution. rewrite Ho, Hr, Hf.
    repeat split; lia.
Qed.

(** C6: once [Close] has returned, every later [PushBack] (whatever
    happened in between) fails with [errListClosed] and leaves the list as
    it was; on a list that is not closed, [PushBack] appends the payload
    at the tail and returns the handle of the new node with no error. *)
Theorem PushBack_closed_or_appends (l : mlist) (value : option Elem) :
  (forall (ops : list Op) (l' : mlist),
      run ops (Close l) = Some l' ->
      PushBack value l' = (l', (None, Some errListClosed))) /\
  (closed l = false ->
   exists l', PushBack value l = (l', (Some (nextElem l), None)) /\
              aggregations l' = aggregations l ++ [mkElement (nextElem l) value] /\
              closed l' = false).
Proof.
  split.
  - intros ops l' Hrun.
    apply run_closed in Hrun; [|apply Close_closed].
    unfold PushBack. rewrite Hrun. reflexivity.
  - intros Hopen. unfold PushBack. rewrite Hopen.
    eexists; split; [reflexivity|]. cbn. auto.
Qed.

Lemma closeTimes_Close (n : nat) (l : mlist) :
  closeTimes (S n) l = Close l.
Proof.
  revert l; induction n as [|n IH]; intros l; [reflexivity|].
  change (closeTimes (S (S n)) l) with (closeTimes (S n) (Close l)).
  rewrite IH. apply Close_idemp.
Qed.

End ListApi.

(** ** The registry *)

Section RegistryFacts.
Context {Policy Elem Sink Pool : Type}.
Context `{!metricElem Policy Elem, !RecordFormat Policy,
          !Handler Sink, !BufferedEncoderPool Pool}.

Local Abbreviation mlist := (metricList Policy Elem Sink Pool).
Local Abbreviation mlists := (metricLists Policy Elem Sink Pool).
Local Abbreviation store := (Store Policy Elem Sink Pool).

Lemma FindOrCreate_closed (R : Z) (ls : mlists) (σ : store) :
  ls_closed ls = true ->
  Lists.FindOrCreate R ls σ = (ls, σ, (None, Some errListsClosed)).
Proof. intros Hc. unfold Lists.FindOrCreate. rewrite Hc. reflexivity. Qed.

Lemma FindOrCreate_found (R : Z) (ls : mlists) (σ : store) (p : nat) :
  ls_closed ls = false -> lists ls !! R = Some p ->
  Lists.FindOrCreate R ls σ = (ls, σ, (Some p, None)).
Proof.
  intros Hc Hp. unfold Lists.FindOrCreate. rewrite Hc, Hp. reflexivity.
Qed.

Lemma FindOrCreate_new (R : Z) (ls : mlists) (σ : store) :
  ls_closed ls = false -> lists ls !! R = None ->
  Lists.FindOrCreate R ls σ =
  (mkMetricLists (ls_opts ls) (newMetricListFn ls) false
     (<[R := length (heap σ)]> (lists ls)),
   mkStore (heap σ ++ [newMetricListFn ls R (ls_opts ls)])
           (registered σ ++ [length (heap σ)]),
   (Some (length (heap σ)), None)).
Proof.
  intros Hc Hp. unfold Lists.FindOrCreate, Lists.alloc.
  rewrite Hc, Hp. reflexivity.
Qed.

(** A call leaves the flag alone and keeps every binding of the map. *)
Lemma FindOrCreate_keeps (R R' : Z) (ls : mlists) (σ : store) (p : nat) :
  ls_closed ls = false -> lists ls !! R = Some p ->
  ls_closed (Lists.FindOrCreate R' ls σ).1.1 = false /\
  lists (Lists.FindOrCreate R' ls σ).1.1 !! R = Some p.
Proof.
  intros Hc Hp.
  destruct (lists ls !! R') as [q|] eqn:Hq.
  - rewrite (FindOrCreate_found R' ls σ q Hc Hq). auto.
  - rewrite (FindOrCreate_new R' ls σ Hc Hq). cbn. split; [reflexivity|].
    rewrite lookup_insert_ne; [exact Hp|]. congruence.
Qed.

Lemma findOrCreateAll_keeps (rs : list Z) (R : Z) (ls : mlists) (σ : store) (p : nat) :
  ls_closed ls = false -> lists ls !! R = Some p ->
  ls_closed (Lists.findOrCreateAll rs ls σ).1 = false /\
  lists (Lists.findOrCreateAll rs ls σ).1 !! R = Some p.
Proof.
  revert ls σ; induction rs as [|r rs IH]; intros ls σ Hc Hp; cbn; [auto|].
  destruct (FindOrCreate_keeps R r ls σ p Hc Hp) as [Hc' Hp'].
  destruct (Lists.FindOrCreate r ls σ) as [[ls' σ'] res]. cbn in *.
  apply IH; assumption.
Qed.

(** C8: on a registry that is not closed, [FindOrCreate R] returns a
    list, and after any further [FindOrCreate] calls a second
    [FindOrCreate R] returns that same list and changes nothing; on a
    closed registry (in particular after [Close]) it fails with
    [errListsClosed]. *)
Theorem FindOrCreate_same_list (R : Z) (ls : mlists) (σ : store) :
  (ls_closed ls = false ->
   exists p ls1 σ1,
     Lists.FindOrCreate R ls σ = (ls1, σ1, (Some p, None)) /\
     forall rs : list Z,
       let '(ls2, σ2) := Lists.findOrCreateAll rs ls1 σ1 in
       Lists.FindOrCreate R ls2 σ2 = (ls2, σ2, (Some p, None))) /\
  (ls_closed ls = true ->
   Lists.FindOrCreate R ls σ = (ls, σ, (None, Some errListsClosed))) /\
  (let '(ls', σ') := Lists.Close ls σ in
   Lists.FindOrCreate R ls' σ' = (ls', σ', (None, Some errListsClosed))).
Proof.
  split; [|split].
  - intros Hc.
    assert (exists p ls1 σ1,
      Lists.FindOrCreate R ls σ = (ls1, σ1, (Some p, None)) /\
      ls_closed ls1 = false /\ lists ls1 !! R = Some p) as (p & ls1 & σ1 & Hf & Hc1 & Hp1).
    { destruct (lists ls !! R) as [q|] eqn:Hq.
      - exists q, ls, σ. rewrite (FindOrCreate_found R ls σ q Hc Hq). auto.
      - rewrite (FindOrCreate_new R ls σ Hc Hq).
        do 3 eexists. split; [reflexivity|]. cbn. split; [reflexivity|].
        apply lookup_insert_eq. }
    exists p, ls1, σ1. split; [exact Hf|]. intros rs.
    destruct (findOrCreateAll_keeps rs R ls1 σ1 p Hc1 Hp1) as [Hc2 Hp2].
    destruct (Lists.findOrCreateAll rs ls1 σ1) as [ls2 σ2]. cbn in *.
    apply FindOrCreate_found; assumption.
  - apply FindOrCreate_closed.
  - destruct (Lists.Close ls σ) as [ls' σ'] eqn:Hcl.
    apply FindOrCreate_closed.
    unfold Lists.Close in Hcl. destruct (ls_closed ls) eqn:Hc.
    + injection Hcl as <- <-. exact Hc.
    + injection Hcl as <- <-. reflexivity.
Qed.

Lemma Lists_Close_closed (ls : mlists) (σ : store) :
  ls_closed (Lists.Close ls σ).1 = true.
Proof.
  unfold Lists.Close. destruct (ls_closed ls) eqn:Hc; [exact Hc|reflexivity].
Qed.

Lemma Lists_Close_idemp (ls : mlists) (σ : store) :
  Lists.Close (Lists.Close ls σ).1 (Lists.Close ls σ).2 = Lists.Close ls σ.
Proof.
  pose proof (Lists_Close_closed ls σ) as Hc.
  destruct (Lists.Close ls σ) as [ls' σ']. cbn in *.
  unfold Lists.Close. rewrite Hc. reflexivity.
Qed.

Lemma Lists_closeTimes_Close (n : nat) (ls : mlists) (σ : store) :
  Lists.closeTimes (S n) ls σ = Lists.Close ls σ.
Proof.
  revert ls σ; induction n as [|n IH]; intros ls σ.
  - cbn. destruct (Lists.Close ls σ); reflexivity.
  - change (Lists.closeTimes (S (S n)) ls σ)
      with (let '(l', σ') := Lists.Close ls σ in Lists.closeTimes (S n) l' σ').
    pose proof (Lists_Close_idemp ls σ) as Hid.
    destruct (Lists.Close ls σ) as [ls' σ']. cbn in Hid.
    rewrite IH. exact Hid.
Qed.

Lemma closeAt_lookup (σ : store) (p q : nat) :
  heap (Lists.closeAt σ p) !! q =
  if decide (p = q) then Close <$> heap σ !! q else heap σ !! q.
Proof.
  unfold Lists.closeAt; cbn. rewrite list_lookup_alter.
  case_decide; subst; reflexivity.
Qed.

Lemma closeAll_lookup (ps : list nat) (σ : store) (q : nat) :
  heap (foldl Lists.closeAt σ ps) !! q =
  if decide (q ∈ ps) then Close <$> heap σ !! q else heap σ !! q.
Proof.
  revert σ; induction ps as [|p ps IH]; intros σ; cbn.
  - case_decide as Hin; [|reflexivity]. by apply elem_of_nil in Hin.
  - rewrite IH, closeAt_lookup.
    destruct (decide (p = q)) as [->|Hpq].
    + assert (Hfm : Close <$> (Close <$> heap σ !! q) = Close <$> heap σ !! q).
      { destruct (heap σ !! q) as [l|]; cbn; [|reflexivity].
        f_equal. apply Close_idemp. }
      rewrite (decide_True (P := q ∈ q :: ps)) by (apply elem_of_cons; auto).
      case_decide; [exact Hfm|reflexivity].
    + case_decide as Hin.
      * rewrite (decide_True (P := q ∈ p :: ps)); [reflexivity|].
        apply elem_of_cons; auto.
      * rewrite (decide_False (P := q ∈ p :: ps)); [reflexivity|].
        intros [->|?]%elem_of_cons; tauto.
Qed.

(** C9: [Close] applied [n >= 1] times leaves what one [Close] leaves,
    on a list and on the registry; the registry's [Close] sets the flag
    and, when the registry was open, applies the list's [Close] to every
    list of the map and to no other list of the store. *)
Theorem Close_n_times_is_once (n : nat) :
  1 <= n ->
  (forall l : mlist, closeTimes n l = Close l) /\
  (forall (ls : mlists) (σ : store),
      Lists.closeTimes n ls σ = Lists.Close ls σ) /\
  (forall (ls : mlists) (σ : store),
      ls_closed (Lists.Close ls σ).1 = true /\
      lists (Lists.Close ls σ).1 = lists ls /\
      (ls_closed ls = false ->
       forall q : nat,
         ((exists R, lists ls !! R = Some q) ->
          heap (Lists.Close ls σ).2 !! q = Close <$> heap σ !! q) /\
         ((forall R, lists ls !! R <> Some q) ->
          heap (Lists.Close ls σ).2 !! q = heap σ !! q))).
Proof.
  intros Hn. destruct n as [|n]; [lia|]. split; [|split].
  - intros l. apply closeTimes_Close.
  - intros ls σ. apply Lists_closeTimes_Close.
  - intros ls σ. split; [apply Lists_Close_closed|]. split.
    + unfold Lists.Close. destruct (ls_closed ls); reflexivity.
    + intros Hc q. unfold Lists.Close. rewrite Hc. cbn.
      rewrite closeAll_lookup.
      assert (Hiff : q ∈ (map_to_list (lists ls)).*2 <-> exists R, lists ls !! R = Some q).
      { rewrite list_elem_of_fmap. split.
        - intros ([R q'] & -> & Hin). exists R. by apply elem_of_map_to_list.
        - intros [R HR]. exists (R, q). split; [reflexivity|].
          by apply elem_of_map_to_list. }
      destruct (decide (q ∈ (map_to_list (lists ls)).*2)) as [Hin|Hin].
      * split; [reflexivity|]. intros Hno. apply Hiff in Hin as [R HR].
        destruct (Hno R HR).
      * split; [|reflexivity]. intros Hex. apply Hiff in Hex. tauto.
Qed.

End RegistryFacts.

(** ** Emission: encoding, buffering and splitting *)

Section EmissionFacts.
Context {Policy Elem Sink Pool : Type}.
Context `{!metricElem Policy Elem, !RecordFormat Policy,
          !Handler Sink, !BufferedEncoderPool Pool}.

Local Abbreviation mlist := (metricList Policy Elem Sink Pool).

Ltac setters :=
  unfold set_flushHandler, set_encoderPool, set_aggregations, set_nextElem,
    set_encoder, set_toCollect, set_closed, set_metrics, log,
    AggregatedEncoder_Reset, BufferedEncoder_Reset, Buffer_Truncate; cbn.

Lemma handed_app (t1 t2 : list (Event Policy)) :
  handed (t1 ++ t2) = handed t1 ++ handed t2.
Proof. apply omap_app. Qed.

Lemma emitted_app (t1 t2 : list (Event Policy)) :
  emitted (t1 ++ t2) = emitted t1 ++ emitted t2.
Proof. apply omap_app. Qed.

Lemma currentAtHandOff_app (t1 t2 : list (Event Policy)) :
  currentAtHandOff (t1 ++ t2) = currentAtHandOff t1 ++ currentAtHandOff t2.
Proof. apply omap_app. Qed.

Lemma consumed_app (t1 t2 : list (Event Policy)) :
  consumed (t1 ++ t2) = consumed t1 ++ consumed t2.
Proof. apply omap_app. Qed.

Lemma closedElems_app (t1 t2 : list (Event Policy)) :
  closedElems (t1 ++ t2) = closedElems t1 ++ closedElems t2.
Proof. apply omap_app. Qed.

Lemma okRecords_app (m1 m2 : list (ChunkedMetricWithPolicy Policy)) :
  okRecords (m1 ++ m2) = okRecords m1 ++ okRecords m2.
Proof. apply omap_app. Qed.

(** The events of a hand-off: the call, then the error log if it failed. *)
Lemma handOff_trace (buf : bytes) (l : mlist) :
  exists tail,
    trace (handOff buf l) = trace l ++ EvHandle buf (Buffer (encoder l)) :: tail /\
    (tail = [] \/ tail = [EvLogFlushError]) /\
    encodeErrors (metrics (handOff buf l)) = encodeErrors (metrics l).
Proof.
  unfold handOff; cbn.
  destruct (Handle (flushHandler l) buf) as [s [|]]; cbn.
  - exists [EvLogFlushError]. rewrite <- app_assoc. auto.
  - exists []. auto.
Qed.

Lemma handOff_projections (buf : bytes) (l : mlist) :
  handed (trace (handOff buf l)) = handed (trace l) ++ [buf] /\
  currentAtHandOff (trace (handOff buf l)) =
    currentAtHandOff (trace l) ++ [Buffer (encoder l)] /\
  emitted (trace (handOff buf l)) = emitted (trace l) /\
  consumed (trace (handOff buf l)) = consumed (trace l) /\
  closedElems (trace (handOff buf l)) = closedElems (trace l).
Proof.
  destruct (handOff_trace buf l) as (tail & -> & Htail & _).
  rewrite handed_app, currentAtHandOff_app, emitted_app, consumed_app,
    closedElems_app.
  destruct Htail as [-> | ->]; cbn; rewrite ?app_nil_r; auto.
Qed.

(** The failing path of [processAggregatedMetric]. *)
Lemma aggMetricFn_failed (e : Emission Policy) (l : mlist) :
  (EncodeChunkedMetricWithPolicy (toRecord e) (encoder l)).2 = true ->
  aggMetricFn e l =
  mkMetricList (opts l) (maxFlushSize l) (flushHandler l) (encoderPool l)
    (resolution l) (flushInterval l) (aggregations l) (nextElem l)
    (mkAggregatedEncoder (Buffer (encoder l)) false) (toCollect l) (closed l)
    (inc_encodeErrors (metrics l))
    (trace l ++ [EvEmit (toRecord e); EvLogEncodeError (toRecord e)]).
Proof.
  unfold aggMetricFn, processAggregatedMetric, toRecord,
    EncodeChunkedMetricWithPolicy; cbn.
  destruct (encErr (encoder l)) eqn:Herr; cbn.
  - intros _. setters. rewrite take_ge by lia.
    rewrite <- app_assoc. reflexivity.
  - destruct (encodeRecord _) as [r|p]; cbn; [discriminate|].
    intros _. setters. rewrite take_app_length.
    rewrite <- app_assoc. reflexivity.
Qed.

(** The two successful paths. *)
Lemma aggMetricFn_buffered (e : Emission Policy) (r : bytes) (l : mlist) :
  encErr (encoder l) = false ->
  encodeRecord (toRecord e) = Encoded r ->
  (Z.of_nat (length (Buffer (encoder l) ++ r)) < maxFlushSize l)%Z ->
  aggMetricFn e l =
  mkMetricList (opts l) (maxFlushSize l) (flushHandler l) (encoderPool l)
    (resolution l) (flushInterval l) (aggregations l) (nextElem l)
    (mkAggregatedEncoder (Buffer (encoder l) ++ r) false) (toCollect l)
    (closed l) (metrics l) (trace l ++ [EvEmit (toRecord e)]).
Proof.
  intros Herr Henc Hlt.
  unfold aggMetricFn, processAggregatedMetric, EncodeChunkedMetricWithPolicy.
  fold (toRecord e). cbn. rewrite Herr, Henc. cbn.
  apply Z.ltb_lt in Hlt. rewrite Hlt. reflexivity.
Qed.

Lemma aggMetricFn_split (e : Emission Policy) (r : bytes) (l : mlist) :
  encErr (encoder l) = false ->
  encodeRecord (toRecord e) = Encoded r ->
  (maxFlushSize l <= Z.of_nat (length (Buffer (encoder l) ++ r)))%Z ->
  aggMetricFn e l =
  handOff (Buffer (encoder l))
    (mkMetricList (opts l) (maxFlushSize l) (flushHandler l)
       (PoolGet (encoderPool l)).2
       (resolution l) (flushInterval l) (aggregations l) (nextElem l)
       (mkAggregatedEncoder r false) (toCollect l)
       (closed l) (metrics l) (trace l ++ [EvEmit (toRecord e)])).
Proof.
  intros Herr Henc Hge.
  unfold aggMetricFn, processAggregatedMetric, EncodeChunkedMetricWithPolicy.
  fold (toRecord e). cbn. rewrite Herr, Henc. cbn.
  apply Z.ltb_ge in Hge. rewrite Hge.
  destruct (PoolGet (encoderPool l)) as [b pool]. setters.
  rewrite take_app_length, take_ge by lia. rewrite drop_app_length.
  reflexivity.
Qed.

(** C3: when the call of the encoder fails, the encoder's buffer is back
    to the bytes it held before the call, nothing is handed to the sink,
    [encodeErrors] is incremented by one, the encoder's error is cleared
    (it keeps the same buffer), and the remaining emissions are processed
    from the resulting state. *)
Theorem encode_failure_drops_sample (e : Emission Policy) (l : mlist) :
  (EncodeChunkedMetricWithPolicy (toRecord e) (encoder l)).2 = true ->
  let l' := aggMetricFn e l in
  Buffer (encoder l') = Buffer (encoder l) /\
  encErr (encoder l') = false /\
  handed (trace l') = handed (trace l) /\
  trace l' = trace l ++ [EvEmit (toRecord e); EvLogEncodeError (toRecord e)] /\
  encodeErrors (metrics l') = (encodeErrors (metrics l) + 1)%Z /\
  flushSuccess (metrics l') = flushSuccess (metrics l) /\
  flushErrors (metrics l') = flushErrors (metrics l) /\
  aggregations l' = aggregations l /\
  forall rest, emitAll (e :: rest) l = emitAll rest l'.
Proof.
  intros Hfail l'. subst l'. rewrite (aggMetricFn_failed e l Hfail).
  cbn [trace encoder Buffer encErr metrics aggregations].
  rewrite handed_app.
  repeat split; [apply app_nil_r|].
  intros rest. rewrite emitAll_cons.
  rewrite (aggMetricFn_failed e l Hfail). reflexivity.
Qed.

Lemma aggMetricFn_cases (e : Emission Policy) (l : mlist) :
  (EncodeChunkedMetricWithPolicy (toRecord e) (encoder l)).2 = true \/
  exists r, encErr (encoder l) = false /\
            encodeRecord (toRecord e) = Encoded r /\
            ((Z.of_nat (length (Buffer (encoder l) ++ r)) < maxFlushSize l)%Z \/
             (maxFlushSize l <= Z.of_nat (length (Buffer (encoder l) ++ r)))%Z).
Proof.
  unfold EncodeChunkedMetricWithPolicy.
  destruct (encErr (encoder l)); [left; reflexivity|].
  destruct (encodeRecord (toRecord e)) as [r|p]; [|left; reflexivity].
  right. exists r. repeat split. lia.
Qed.

Lemma encode_failed_not_ok (e : Emission Policy) (l : mlist) :
  encErr (encoder l) = false ->
  (EncodeChunkedMetricWithPolicy (toRecord e) (encoder l)).2 = true ->
  okRecords [toRecord e] = [].
Proof.
  unfold EncodeChunkedMetricWithPolicy, okRecords. intros ->. cbn.
  destruct (encodeRecord (toRecord e)); [discriminate|reflexivity].
Qed.

(** What one emission adds to the trace, whatever path it takes. *)
Lemma aggMetricFn_trace (e : Emission Policy) (l : mlist) :
  emitted (trace (aggMetricFn e l)) = emitted (trace l) ++ [toRecord e] /\
  consumed (trace (aggMetricFn e l)) = consumed (trace l) /\
  closedElems (trace (aggMetricFn e l)) = closedElems (trace l).
Proof.
  destruct (aggMetricFn_cases e l) as [Hfail|(r & Herr & Henc & [Hlt|Hge])].
  - rewrite (aggMetricFn_failed e l Hfail). cbn [trace].
    rewrite emitted_app, consumed_app, closedElems_app. cbn.
    rewrite !app_nil_r. auto.
  - rewrite (aggMetricFn_buffered e r l Herr Henc Hlt). cbn [trace].
    rewrite emitted_app, consumed_app, closedElems_app. cbn.
    rewrite !app_nil_r. auto.
  - rewrite (aggMetricFn_split e r l Herr Henc Hge).
    match goal with |- context [handOff ?b ?x] =>
      destruct (handOff_projections b x) as (_ & _ & -> & -> & ->) end.
    cbn [trace]. rewrite emitted_app, consumed_app, closedElems_app. cbn.
    rewrite !app_nil_r. auto.
Qed.


Lemma wholeRecords_nil : wholeRecords ([] : bytes).
Proof. exists []. split; [constructor|reflexivity]. Qed.

Lemma wholeRecords_snoc (b r : bytes) :
  wholeRecords b -> isRecord r -> wholeRecords (b ++ r).
Proof.
  intros (rs & Hrs & ->) Hr. exists (rs ++ [r]). split.
  - apply Forall_app. split; [exact Hrs|]. constructor; [exact Hr|constructor].
  - rewrite concat_app. cbn. rewrite app_nil_r. reflexivity.
Qed.

Lemma aggMetricFn_wholeInv (e : Emission Policy) (l : mlist) :
  wholeInv l -> wholeInv (aggMetricFn e l).
Proof.
  intros (Herr0 & Hbuf & Hhanded). unfold wholeInv.
  destruct (aggMetricFn_cases e l) as [Hfail|(r & Herr & Henc & [Hlt|Hge])].
  - rewrite (aggMetricFn_failed e l Hfail). cbn [trace encoder Buffer encErr].
    rewrite handed_app. cbn. rewrite app_nil_r. auto.
  - rewrite (aggMetricFn_buffered e r l Herr Henc Hlt).
    cbn [trace encoder Buffer encErr]. rewrite handed_app. cbn.
    rewrite app_nil_r. repeat split; [|exact Hhanded].
    apply wholeRecords_snoc; [exact Hbuf|]. eexists; exact Henc.
  - rewrite (aggMetricFn_split e r l Herr Henc Hge).
    match goal with |- context [handOff ?b ?x] =>
      destruct (handOff_projections b x) as (-> & _);
      destruct (handOff_frame b x) as (_ & _ & _ & _ & _ & ->) end.
    cbn [trace encoder Buffer encErr]. rewrite handed_app. cbn.
    rewrite app_nil_r. repeat split.
    + apply (wholeRecords_snoc [] r); [apply wholeRecords_nil|].
      eexists; exact Henc.
    + apply Forall_app. split; [exact Hhanded|].
      constructor; [exact Hbuf|constructor].
Qed.

End EmissionFacts.

(** ** The phases of [Flush] *)

Section FlushFacts.
Context {Policy Elem Sink Pool : Type}.
Context `{!metricElem Policy Elem, !RecordFormat Policy,
          !Handler Sink, !BufferedEncoderPool Pool}.

Local Abbreviation mlist := (metricList Policy Elem Sink Pool).

Lemma emitAll_trace (ems : list (Emission Policy)) (l : mlist) :
  emitted (trace (emitAll ems l)) = emitted (trace l) ++ (toRecord <$> ems) /\
  consumed (trace (emitAll ems l)) = consumed (trace l) /\
  closedElems (trace (emitAll ems l)) = closedElems (trace l).
Proof.
  revert l; induction ems as [|e ems IH]; intros l.
  - cbn. rewrite app_nil_r. auto.
  - rewrite emitAll_cons. destruct (IH (aggMetricFn e l)) as (-> & -> & ->).
    destruct (aggMetricFn_trace e l) as (-> & -> & ->).
    rewrite <- app_assoc. auto.
Qed.



Lemma flushLoop_cons B (e : Element Elem) es (l : mlist) (x : Elem) :
  elemValue e = Some x ->
  flushLoop B (e :: es) l =
  match flushLoop B es
          (afterElem B (elemId e) (Consume x B).1.2 (Consume x B).2 l) with
  | None => None
  | Some (rest, l') =>
    Some (mkElement (elemId e)
            (if (Consume x B).2 then None else Some (Consume x B).1.1) :: rest,
          l')
  end.
Proof.
  intros Hx. cbn. rewrite Hx. unfold afterElem.
  destruct (Consume x B) as [[x' ems] [|]]; reflexivity.
Qed.

Lemma afterElem_frame B h ems done (l : mlist) :
  toCollect (afterElem B h ems done l) =
    toCollect l ++ (if done then [h] else []).
Proof.
  unfold afterElem.
  destruct (emitAll_frame ems (log (EvConsume h B) l)) as (_ & _ & _ & Htc & _).
  destruct done; cbn; rewrite ?Htc; cbn; rewrite ?app_nil_r; reflexivity.
Qed.

Lemma afterElem_trace B h ems done (l : mlist) :
  emitted (trace (afterElem B h ems done l)) =
    emitted (trace l) ++ (toRecord <$> ems) /\
  consumed (trace (afterElem B h ems done l)) = consumed (trace l) ++ [h] /\
  closedElems (trace (afterElem B h ems done l)) =
    closedElems (trace l) ++ (if done then [h] else []).
Proof.
  unfold afterElem.
  destruct (emitAll_trace ems (log (EvConsume h B) l)) as (He & Hc & Hcl).
  destruct done; cbn [trace set_toCollect log];
    rewrite ?emitted_app, ?consumed_app, ?closedElems_app, He, Hc, Hcl;
    cbn [trace log]; rewrite ?emitted_app, ?consumed_app, ?closedElems_app;
    cbn; rewrite ?app_nil_r; auto.
Qed.




(** *** The consuming loop *)

Lemma afterConsume_Some B (e : Element Elem) (x : Elem) :
  elemValue e = Some x ->
  afterConsume B e =
  mkElement (elemId e) (if (Consume x B).2 then None else Some (Consume x B).1.1).
Proof.
  intros Hx. unfold afterConsume. rewrite Hx.
  destruct (Consume x B) as [[x' ems] done]; reflexivity.
Qed.

Lemma finished_Some B (e : Element Elem) (x : Elem) :
  elemValue e = Some x -> finished B e = (Consume x B).2.
Proof.
  intros Hx. unfold finished, verdict. rewrite Hx.
  destruct ((Consume x B).2); reflexivity.
Qed.

Lemma elemId_afterConsume B (e : Element Elem) :
  elemId (afterConsume B e) = elemId e.
Proof.
  unfold afterConsume. destruct (elemValue e) as [x|]; [|reflexivity].
  destruct (Consume x B) as [[x' ems] done]; reflexivity.
Qed.

Lemma flushLoop_shape B (es es' : list (Element Elem)) (l l' : mlist) :
  flushLoop B es l = Some (es', l') ->
  es' = afterConsume B <$> es /\
  Forall (fun e => is_Some (elemValue e)) es /\
  toCollect l' =
    toCollect l ++ (elemId <$> filter (fun e => finished B e = true) es) /\
  emitted (trace l') = emitted (trace l) ++ (toRecord <$> emissionsOf B es) /\
  consumed (trace l') = consumed (trace l) ++ (elemId <$> es) /\
  closedElems (trace l') =
    closedElems (trace l) ++ (elemId <$> filter (fun e => finished B e = true) es).
Proof.
  revert es' l; induction es as [|e es IH]; intros es' l.
  - cbn. intros [= <- <-]. rewrite !app_nil_r. repeat split. constructor.
  - destruct (elemValue e) as [x|] eqn:Hx; [|cbn; rewrite Hx; discriminate].
    rewrite (flushLoop_cons B e es l x Hx).
    destruct (flushLoop B es _) as [[rest l1]|] eqn:Hrec; [|discriminate].
    intros [= <- <-].
    apply IH in Hrec as (-> & Hall & Htc & Hem & Hco & Hcl).
    rewrite Htc, Hem, Hco, Hcl, afterElem_frame.
    destruct (afterElem_trace B (elemId e) (Consume x B).1.2 (Consume x B).2 l)
      as (-> & -> & ->).
    rewrite filter_cons, (finished_Some B e x Hx).
    assert (Hems : emissionsOf B (e :: es) = (Consume x B).1.2 ++ emissionsOf B es).
    { cbn. rewrite Hx. reflexivity. }
    rewrite Hems, fmap_app, fmap_cons, (afterConsume_Some B e x Hx).
    rewrite <- !app_assoc.
    split; [reflexivity|]. split; [constructor; [rewrite Hx; eauto|exact Hall]|].
    destruct ((Consume x B).2); cbn; rewrite ?decide_True by reflexivity;
      rewrite ?decide_False by discriminate; cbn; auto.
Qed.

Lemma flushLoop_total B (es : list (Element Elem)) (l : mlist) :
  Forall (fun e => is_Some (elemValue e)) es ->
  is_Some (flushLoop B es l).
Proof.
  intros Hall; revert l; induction Hall as [|e es [x Hx] _ IH]; intros l.
  - cbn. eauto.
  - rewrite (flushLoop_cons B e es l x Hx).
    destruct (IH (afterElem B (elemId e) (Consume x B).1.2 (Consume x B).2 l))
      as [[rest l1] ->]. eauto.
Qed.



(** *** The tail flush *)

Lemma flushRemaining_empty (l : mlist) :
  Buffer (encoder l) = [] -> flushRemaining l = l.
Proof. intros Hb. unfold flushRemaining. rewrite Hb. reflexivity. Qed.

Lemma flushRemaining_nonempty (l : mlist) :
  Buffer (encoder l) <> [] ->
  flushRemaining l =
  handOff (Buffer (encoder l))
    (set_encoder (mkAggregatedEncoder [] false)
       (set_encoderPool (PoolGet (encoderPool l)).2 l)).
Proof.
  intros Hb. unfold flushRemaining.
  destruct (Buffer (encoder l)) as [|b bs] eqn:Hbuf; [congruence|]. cbn.
  destruct (PoolGet (encoderPool l)) as [nb pool]. reflexivity.
Qed.

Lemma flushRemaining_effect (l : mlist) :
  Buffer (encoder (flushRemaining l)) = [] /\
  (encErr (encoder l) = false -> encErr (encoder (flushRemaining l)) = false) /\
  sent (flushRemaining l) = sent l /\
  handed (trace (flushRemaining l)) =
    handed (trace l) ++
    (if decide (Buffer (encoder l) = []) then [] else [Buffer (encoder l)]) /\
  currentAtHandOff (trace (flushRemaining l)) =
    currentAtHandOff (trace l) ++
    (if decide (Buffer (encoder l) = []) then [] else [[]]) /\
  emitted (trace (flushRemaining l)) = emitted (trace l) /\
  consumed (trace (flushRemaining l)) = consumed (trace l) /\
  closedElems (trace (flushRemaining l)) = closedElems (trace l).
Proof.
  destruct (decide (Buffer (encoder l) = [])) as [Hb|Hb].
  - rewrite (flushRemaining_empty l Hb), !app_nil_r. unfold sent.
    repeat split; auto.
  - rewrite (flushRemaining_nonempty l Hb). unfold sent.
    match goal with |- context [handOff ?b ?x] =>
      destruct (handOff_projections b x) as (-> & -> & -> & -> & ->);
      destruct (handOff_frame b x) as (_ & _ & _ & _ & _ & ->) end.
    cbn. rewrite concat_app. cbn. rewrite !app_nil_r. repeat split.
Qed.


(** *** Collection *)

Lemma filter_all {A} (P : A -> Prop) `{!forall x, Decision (P x)} (xs : list A) :
  (forall x, x ∈ xs -> P x) -> filter P xs = xs.
Proof.
  induction xs as [|x xs IH]; intros Hall; [reflexivity|].
  rewrite filter_cons_True by (apply Hall, elem_of_cons; auto).
  f_equal. apply IH. intros y Hy. apply Hall, elem_of_cons; auto.
Qed.

Lemma foldl_Remove (hs : list nat) (aggs : list (Element Elem)) :
  foldl Remove aggs hs = filter (fun e => elemId e ∉ hs) aggs.
Proof.
  revert aggs; induction hs as [|h hs IH]; intros aggs; cbn.
  - symmetry. apply filter_all. intros e _. apply not_elem_of_nil.
  - rewrite IH. unfold Remove. rewrite list_filter_filter.
    apply list_filter_iff. intros e. rewrite not_elem_of_cons. tauto.
Qed.

(** Removing the collected handles leaves the nodes that did not finish,
    provided handles are distinct. *)
Lemma collect_unfinished B (aggs : list (Element Elem)) :
  NoDup (elemId <$> aggs) ->
  foldl Remove (afterConsume B <$> aggs)
    (elemId <$> filter (fun e => finished B e = true) aggs) =
  afterConsume B <$> filter (fun e => finished B e <> true) aggs.
Proof.
  intros Hnd. rewrite foldl_Remove.
  assert (Hgen : forall (tc : list nat) (es : list (Element Elem)),
    (forall e, e ∈ es -> elemId e ∈ tc <-> finished B e = true) ->
    filter (fun e => elemId e ∉ tc) (afterConsume B <$> es) =
    afterConsume B <$> filter (fun e => finished B e <> true) es).
  { intros tc es. induction es as [|e es IH]; intros Hiff; [reflexivity|].
    rewrite fmap_cons, !filter_cons, elemId_afterConsume.
    rewrite IH by (intros e' He'; apply Hiff, elem_of_cons; auto).
    pose proof (Hiff e (proj2 (elem_of_cons _ _ _) (or_introl eq_refl))) as He.
    destruct (decide (elemId e ∉ tc)) as [Hn|Hn];
      destruct (decide (finished B e <> true)) as [Hf|Hf];
      try reflexivity.
    - exfalso. destruct (finished B e) eqn:Hfin.
      + apply Hn, He. reflexivity.
      + apply Hf. discriminate.
    - exfalso. apply Hn. intros Hin. apply He in Hin. congruence. }
  apply Hgen. intros e He. rewrite list_elem_of_fmap. split.
  - intros (e' & Hid & Hin). apply list_elem_of_filter in Hin as (Hfin & Hin).
    assert (e' = e) as <-; [|exact Hfin].
    clear -Hnd He Hin Hid. induction aggs as [|a aggs IH]; [by apply elem_of_nil in He|].
    rewrite fmap_cons in Hnd. apply NoDup_cons in Hnd as (Hna & Hnd).
    apply elem_of_cons in He as [->|He]; apply elem_of_cons in Hin as [->|Hin];
      try reflexivity.
    + exfalso. apply Hna. rewrite Hid. apply list_elem_of_fmap_2. exact Hin.
    + exfalso. apply Hna. rewrite <- Hid. apply list_elem_of_fmap_2. exact He.
    + apply IH; assumption.
  - intros Hfin. exists e. split; [reflexivity|].
    apply list_elem_of_filter. auto.
Qed.

(** *** [Flush] as a whole *)

Lemma Flush_unfold start finish (l l' : mlist) :
  Flush start finish l = Some l' ->
  exists aggs l1,
    flushLoop (alignedStart start l) (aggregations l) (set_toCollect [] l)
      = Some (aggs, l1) /\
    flushConsume start l = Some (set_aggregations aggs l1) /\
    l' = flushCollect start finish (flushRemaining (set_aggregations aggs l1)).
Proof.
  unfold Flush, flushConsume.
  change (aggregations (set_toCollect [] l)) with (aggregations l).
  destruct (flushLoop _ _ _) as [[aggs l1]|]; [|discriminate].
  intros [= <-]. eauto.
Qed.

Lemma Flush_total start finish (l : mlist) :
  Forall (fun e => is_Some (elemValue e)) (aggregations l) ->
  is_Some (Flush start finish l).
Proof.
  intros Hall. unfold Flush, flushConsume.
  change (aggregations (set_toCollect [] l)) with (aggregations l).
  destruct (flushLoop_total (alignedStart start l) (aggregations l)
              (set_toCollect [] l) Hall) as [[aggs l1] ->].
  eauto.
Qed.

Lemma Flush_facts start finish (l l' : mlist) :
  Flush start finish l = Some l' ->
  let B := alignedStart start l in
  Forall (fun e => is_Some (elemValue e)) (aggregations l) /\
  aggregations l' =
    foldl Remove (afterConsume B <$> aggregations l)
      (elemId <$> filter (fun e => finished B e = true) (aggregations l)) /\
  Buffer (encoder l') = [] /\
  emitted (trace l') =
    emitted (trace l) ++ (toRecord <$> emissionsOf B (aggregations l)) /\
  consumed (trace l') = consumed (trace l) ++ (elemId <$> aggregations l) /\
  closedElems (trace l') =
    closedElems (trace l) ++
    (elemId <$> filter (fun e => finished B e = true) (aggregations l)).
Proof.
  intros HF B. apply Flush_unfold in HF as (aggs & l1 & Hloop & _ & ->).
  apply flushLoop_shape in Hloop as (-> & Hall & Htc & Hem & Hco & Hcl).
  fold B in Htc, Hem, Hco, Hcl |- *.
  set (l2 := set_aggregations (afterConsume B <$> aggregations l) l1).
  destruct (flushRemaining_frame l2) as (_ & _ & Hag & Htc2 & _).
  destruct (flushRemaining_effect l2) as (Hbuf & _ & _ & _ & _ & He2 & Hc2 & Hcl2).
  unfold flushCollect. cbn [aggregations set_aggregations set_metrics
    encoder trace].
  rewrite Hag, Htc2, Hbuf, He2, Hc2, Hcl2. subst l2.
  cbn [aggregations toCollect trace set_aggregations].
  rewrite Htc, Hem, Hco, Hcl. cbn. repeat split. exact Hall.
Qed.



(** *** Runs *)

Lemma run_app (ops1 ops2 : list Op) (l : mlist) :
  run (ops1 ++ ops2) l =
  match run ops1 l with None => None | Some l1 => run ops2 l1 end.
Proof.
  revert l; induction ops1 as [|op ops1 IH]; intros l; cbn; [reflexivity|].
  destruct (step op l); [apply IH|reflexivity].
Qed.






Lemma step_distinctHandles (op : Op) (l l' : mlist) :
  step op l = Some l' -> distinctHandles l -> distinctHandles l'.
Proof.
  intros Hstep (Hnd & Hlt). destruct op as [v| |s f]; cbn in Hstep.
  - injection Hstep as <-. unfold PushBack.
    destruct (closed l); [split; assumption|]. unfold distinctHandles. cbn.
    rewrite fmap_app. cbn. split.
    + apply NoDup_app. split; [exact Hnd|]. split; [|apply NoDup_singleton].
      intros h Hin ->%list_elem_of_singleton.
      apply list_elem_of_fmap in Hin as (e & He & Hin).
      rewrite Forall_forall in Hlt. specialize (Hlt e Hin). lia.
    + apply Forall_app. split.
      * eapply Forall_impl; [exact Hlt|]. cbn. intros; lia.
      * constructor; [cbn; lia|constructor].
  - injection Hstep as <-. unfold Close.
    destruct (closed l); split; assumption.
  - destruct (Flush_frame s f l l' Hstep) as (_ & _ & Hn).
    destruct (Flush_facts s f l l' Hstep) as (_ & Hag & _).
    unfold distinctHandles. rewrite Hag, Hn, foldl_Remove. split.
    + rewrite <- (list_fmap_ext (elemId ∘ afterConsume (alignedStart s l)) elemId
                    (aggregations l)) in Hnd
        by (intros; apply elemId_afterConsume).
      rewrite list_fmap_compose in Hnd.
      revert Hnd. generalize (afterConsume (alignedStart s l) <$> aggregations l).
      intros es. induction es as [|e es IH]; [intros; constructor|].
      rewrite fmap_cons. intros [Hne Hnd']%NoDup_cons. rewrite filter_cons.
      case_decide; [|auto]. rewrite fmap_cons. apply NoDup_cons. split; [|auto].
      intros (e' & He' & Hin)%list_elem_of_fmap. apply Hne. rewrite He'.
      apply list_elem_of_fmap_2. apply list_elem_of_filter in Hin. tauto.
    + apply Forall_forall. intros e (_ & Hin)%list_elem_of_filter.
      apply list_elem_of_fmap in Hin as (e0 & -> & Hin).
      rewrite elemId_afterConsume. rewrite Forall_forall in Hlt. auto.
Qed.

Lemma run_distinctHandles (ops : list Op) (l l' : mlist) :
  run ops l = Some l' -> distinctHandles l -> distinctHandles l'.
Proof.
  revert l; induction ops as [|op ops IH]; intros l; cbn.
  - intros [= <-]; auto.
  - destruct (step op l) as [l1|] eqn:Hs; [|discriminate].
    intros Hr Hst. eapply IH; [eassumption|].
    eapply step_distinctHandles; eassumption.
Qed.

Lemma newMetricList_distinctHandles (R : Z) (o : Options Sink Pool) :
  distinctHandles (newMetricList R o : mlist).
Proof.
  unfold newMetricList. destruct (PoolGet (BufferedEncoderPool_ o)) as [b p].
  split; constructor.
Qed.

End FlushFacts.

(** ** Splitting, hand-off and collection *)

Section FlushTheorems.
Context {Policy Elem Sink Pool : Type}.
Context `{!metricElem Policy Elem, !RecordFormat Policy,
          !Handler Sink, !BufferedEncoderPool Pool}.

Local Abbreviation mlist := (metricList Policy Elem Sink Pool).

(** C1 (as the code has it): when a record is encoded successfully and
    the buffer then holds at least [maxFlushSize] bytes, the buffer handed
    to the sink is the original one truncated to [sizeBefore], that is the
    bytes the buffer held before this record; the record just encoded is
    carried whole into the fresh buffer, which is already the encoder's
    buffer when the sink is called; the buffer handed off, all buffers
    handed off before and the new current buffer consist of whole records. *)
Theorem split_hands_off_bytes_before_record
    (e : Emission Policy) (r : bytes) (l : mlist) :
  wholeInv l ->
  encodeRecord (toRecord e) = Encoded r ->
  (maxFlushSize l <= Z.of_nat (length (Buffer (encoder l)) + length r))%Z ->
  let l' := aggMetricFn e l in
  handed (trace l') = handed (trace l) ++ [Buffer (encoder l)] /\
  currentAtHandOff (trace l') = currentAtHandOff (trace l) ++ [r] /\
  Buffer (encoder l') = r /\
  wholeInv l'.
Proof.
  intros Hinv Henc Hge l'. subst l'.
  split; [|split; [|split]]; [| | |apply aggMetricFn_wholeInv, Hinv].
  all: destruct Hinv as (Herr & _ & _).
  all: rewrite <- length_app in Hge.
  all: rewrite (aggMetricFn_split e r l Herr Henc Hge).
  all: match goal with |- context [handOff ?b ?x] =>
         destruct (handOff_projections b x) as (Hh & Hc & _);
         destruct (handOff_frame b x) as (_ & _ & _ & _ & _ & Hen) end.
  - rewrite Hh. cbn [trace]. rewrite handed_app. cbn.
    rewrite app_nil_r. reflexivity.
  - rewrite Hc. cbn [trace encoder Buffer]. rewrite currentAtHandOff_app. cbn.
    rewrite app_nil_r. reflexivity.
  - rewrite Hen. reflexivity.
Qed.


(** C10: when [Flush] returns, the encoder's buffer is empty, whatever
    the sink answers; in the tail flush the fresh, reset buffer is already
    the encoder's buffer when the old one is handed to the sink, and in a
    split the encoder already writes into the fresh buffer, which holds
    the carried record only, when the old one is handed to the sink. *)
Theorem Flush_leaves_buffer_empty start finish (l l' : mlist) :
  Flush start finish l = Some l' ->
  Buffer (encoder l') = [] /\
  (exists lB,
    flushConsume start l = Some lB /\
    handed (trace l') =
      handed (trace lB) ++
      (if decide (Buffer (encoder lB) = []) then [] else [Buffer (encoder lB)]) /\
    currentAtHandOff (trace l') =
      currentAtHandOff (trace lB) ++
      (if decide (Buffer (encoder lB) = []) then [] else [[]])) /\
  (forall (e : Emission Policy) (r : bytes) (l0 : mlist),
      encErr (encoder l0) = false ->
      encodeRecord (toRecord e) = Encoded r ->
      (maxFlushSize l0 <= Z.of_nat (length (Buffer (encoder l0) ++ r)))%Z ->
      handed (trace (aggMetricFn e l0)) =
        handed (trace l0) ++ [Buffer (encoder l0)] /\
      currentAtHandOff (trace (aggMetricFn e l0)) =
        currentAtHandOff (trace l0) ++ [r]).
Proof.
  intros HF. destruct (Flush_facts start finish l l' HF) as (_ & _ & Hbuf & _).
  split; [exact Hbuf|]. split.
  - apply Flush_unfold in HF as (aggs & l1 & _ & HB & ->).
    exists (set_aggregations aggs l1). split; [exact HB|].
    destruct (flushRemaining_effect (set_aggregations aggs l1))
      as (_ & _ & _ & Hh & Hc & _).
    split; [exact Hh|exact Hc].
  - intros e r l0 Herr Henc Hge.
    rewrite (aggMetricFn_split e r l0 Herr Henc Hge).
    match goal with |- context [handOff ?b ?x] =>
      destruct (handOff_projections b x) as (-> & -> & _) end.
    cbn [trace encoder Buffer].
    rewrite handed_app, currentAtHandOff_app. cbn. rewrite !app_nil_r. auto.
Qed.

Lemma filter_ext_in {A} (P Q : A -> Prop) `{!forall x, Decision (P x)}
    `{!forall x, Decision (Q x)} (xs : list A) :
  (forall x, x ∈ xs -> P x <-> Q x) -> filter P xs = filter Q xs.
Proof.
  induction xs as [|x xs IH]; intros Hiff; [reflexivity|].
  rewrite !filter_cons.
  rewrite IH by (intros y Hy; apply Hiff, elem_of_cons; auto).
  pose proof (Hiff x (proj2 (elem_of_cons _ _ _) (or_introl eq_refl))) as Hx.
  destruct (decide (P x)), (decide (Q x)); try reflexivity; tauto.
Qed.

Lemma finished_verdict B (e : Element Elem) :
  finished B e = true <-> verdict B e = Some true.
Proof.
  unfold finished. destruct (verdict B e) as [[|]|]; split; congruence.
Qed.

Lemma unfinished_verdict B (e : Element Elem) :
  is_Some (elemValue e) ->
  finished B e <> true <-> verdict B e = Some false.
Proof.
  intros [x Hx]. unfold finished, verdict. rewrite Hx.
  destruct ((Consume x B).2); split; congruence.
Qed.

Lemma afterConsume_finished B (e : Element Elem) :
  verdict B e = Some true -> afterConsume B e = mkElement (elemId e) None.
Proof.
  unfold verdict, afterConsume. destruct (elemValue e) as [x|]; [|discriminate].
  destruct (Consume x B) as [[x' ems] done]. cbn. intros [= ->]. reflexivity.
Qed.

Lemma afterConsume_unfinished B (e : Element Elem) :
  verdict B e = Some false -> is_Some (elemValue (afterConsume B e)).
Proof.
  unfold verdict, afterConsume. destruct (elemValue e) as [x|]; [|discriminate].
  destruct (Consume x B) as [[x' ems] done]. cbn. intros [= ->]. cbn. eauto.
Qed.

(** C4: when [Flush] returns on a list with distinct handles, the nodes
    left in [aggregations] are exactly those whose [Consume] returned
    false, in order and each with its payload; every node whose [Consume]
    returned true had its element closed and its payload set to nil by the
    loop, was put in [toCollect], and is gone from the list. *)
Theorem Flush_keeps_unfinished start finish (l l' : mlist) :
  NoDup (elemId <$> aggregations l) ->
  Flush start finish l = Some l' ->
  let B := alignedStart start l in
  Len l' =
    length (filter (fun e => verdict B e = Some false) (aggregations l)) /\
  aggregations l' =
    (afterConsume B <$>
       filter (fun e => verdict B e = Some false) (aggregations l)) /\
  Forall (fun e => is_Some (elemValue e)) (aggregations l') /\
  closedElems (trace l') =
    closedElems (trace l) ++
    (elemId <$> filter (fun e => verdict B e = Some true) (aggregations l)) /\
  forall e, e ∈ aggregations l -> verdict B e = Some true ->
    (elemId e ∉ (elemId <$> aggregations l')) /\
    exists lB, flushConsume start l = Some lB /\
               mkElement (elemId e) None ∈ aggregations lB /\
               elemId e ∈ toCollect lB.
Proof.
  intros Hnd HF B.
  destruct (Flush_facts start finish l l' HF) as (Hall & Hag & _ & _ & _ & Hcl).
  fold B in Hag, Hcl.
  assert (Hfin : filter (fun e => finished B e = true) (aggregations l) =
                 filter (fun e => verdict B e = Some true) (aggregations l)).
  { apply list_filter_iff. intros e. apply finished_verdict. }
  assert (Hunf : filter (fun e => finished B e <> true) (aggregations l) =
                 filter (fun e => verdict B e = Some false) (aggregations l)).
  { apply filter_ext_in. intros e He. apply unfinished_verdict.
    rewrite Forall_forall in Hall. auto. }
  rewrite (collect_unfinished B (aggregations l) Hnd), Hunf in Hag.
  assert (Hgone : forall e, e ∈ aggregations l -> verdict B e = Some true ->
                            elemId e ∉ (elemId <$> aggregations l')).
  { intros e He Hv. rewrite Hag, <- list_fmap_compose.
    intros (e' & Hid & Hin)%list_elem_of_fmap. cbn in Hid.
    rewrite elemId_afterConsume in Hid.
    apply list_elem_of_filter in Hin as (Hv' & Hin).
    assert (e' = e) as ->; [|congruence].
    clear -Hnd He Hin Hid. revert Hnd He Hin.
    generalize (aggregations l) as aggs.
    induction aggs as [|a aggs IH]; intros Hnd He Hin;
      [by apply elem_of_nil in He|].
    rewrite fmap_cons in Hnd. apply NoDup_cons in Hnd as (Hna & Hnd).
    apply elem_of_cons in He as [->|He]; apply elem_of_cons in Hin as [->|Hin];
      try reflexivity.
    - exfalso. apply Hna. rewrite Hid. apply list_elem_of_fmap_2. exact Hin.
    - exfalso. apply Hna. rewrite <- Hid. apply list_elem_of_fmap_2. exact He.
    - apply IH; assumption. }
  split; [unfold Len; rewrite Hag, length_fmap; reflexivity|].
  split; [exact Hag|]. split.
  - rewrite Hag. apply Forall_fmap, Forall_forall.
    intros e (Hv & _)%list_elem_of_filter. cbn.
    apply afterConsume_unfinished, Hv.
  - split; [rewrite Hcl, Hfin; reflexivity|].
    intros e He Hv. split; [apply Hgone; assumption|].
    apply Flush_unfold in HF as (aggs & l1 & Hloop & HB & _).
    apply flushLoop_shape in Hloop as (-> & _ & Htc & _).
    fold B in HB, Htc. eexists. split; [exact HB|]. cbn. split.
    + rewrite <- (afterConsume_finished B e Hv).
      apply list_elem_of_fmap_2, He.
    + rewrite Htc. cbn. apply list_elem_of_fmap_2, list_elem_of_filter.
      split; [apply finished_verdict, Hv|exact He].
Qed.

Lemma step_payloads (op : Op) (l l' : mlist) :
  step op l = Some l' ->
  match op with OpPushBack None => False | _ => True end ->
  Forall (fun e => is_Some (elemValue e)) (aggregations l) ->
  Forall (fun e => is_Some (elemValue e)) (aggregations l').
Proof.
  intros Hstep Hop Hall. destruct op as [v| |s f]; cbn in Hstep.
  - injection Hstep as <-. unfold PushBack. destruct (closed l); [exact Hall|].
    cbn. apply Forall_app. split; [exact Hall|].
    constructor; [|constructor]. destruct v; [eauto|contradiction].
  - injection Hstep as <-. unfold Close. destruct (closed l); exact Hall.
  - destruct (Flush_facts s f l l' Hstep) as (_ & Hag & _).
    rewrite Hag, foldl_Remove. apply Forall_forall.
    intros e (Hnot & Hin)%list_elem_of_filter.
    apply list_elem_of_fmap in Hin as (e0 & -> & Hin).
    rewrite elemId_afterConsume in Hnot.
    rewrite Forall_forall in Hall. destruct (Hall e0 Hin) as [x Hx].
    destruct (finished (alignedStart s l) e0) eqn:Hfin.
    + exfalso. apply Hnot, list_elem_of_fmap_2, list_elem_of_filter. auto.
    + rewrite (finished_Some _ e0 x Hx) in Hfin.
      rewrite (afterConsume_Some _ e0 x Hx), Hfin. cbn. eauto.
Qed.

Lemma run_payloads (ops : list Op) (l l' : mlist) :
  run ops l = Some l' -> pushesNonNil ops ->
  Forall (fun e => is_Some (elemValue e)) (aggregations l) ->
  Forall (fun e => is_Some (elemValue e)) (aggregations l').
Proof.
  revert l; induction ops as [|op ops IH]; intros l; cbn.
  - intros [= <-]; auto.
  - destruct (step op l) as [l1|] eqn:Hs; [|discriminate].
    intros Hr [Hop Hops]%Forall_cons Hall.
    eapply IH; [eassumption|exact Hops|].
    eapply step_payloads; eassumption.
Qed.

(** C5 (as the code has it): the loop of [Flush] has no nil check.  When
    every payload is non-nil, which is the case in every state reached
    from a new list by operations that push no nil payload, [Flush]
    returns and [Consume] is called once on every handle, from head to
    tail; when some handle has a nil payload, the type assertion on it
    panics: the handle is not skipped. *)
Theorem Flush_consumes_every_handle start finish (l : mlist) :
  (Forall (fun e => is_Some (elemValue e)) (aggregations l) ->
   exists l', Flush start finish l = Some l' /\
              consumed (trace l') =
                consumed (trace l) ++ (elemId <$> aggregations l)) /\
  (Exists (fun e => elemValue e = None) (aggregations l) ->
   Flush start finish l = None) /\
  (forall (R : Z) (o : Options Sink Pool) (ops : list Op),
      pushesNonNil ops -> run ops (newMetricList R o) = Some l ->
      Forall (fun e => is_Some (elemValue e)) (aggregations l)).
Proof.
  split; [|split].
  - intros Hall. destruct (Flush_total start finish l Hall) as [l' HF].
    exists l'. split; [exact HF|].
    destruct (Flush_facts start finish l l' HF) as (_ & _ & _ & _ & Hco & _).
    exact Hco.
  - intros Hex. destruct (Flush start finish l) as [l'|] eqn:HF; [|reflexivity].
    exfalso. destruct (Flush_facts start finish l l' HF) as (Hall & _).
    apply Exists_exists in Hex as (e & Hin & Hnil).
    rewrite Forall_forall in Hall. destruct (Hall e Hin) as [x Hx]. congruence.
  - intros R o ops Hops Hrun. eapply run_payloads; [exact Hrun|exact Hops|].
    unfold newMetricList. destruct (PoolGet (BufferedEncoderPool_ o)).
    constructor.
Qed.

End FlushTheorems.

(** ** The properties on the sample collaborators *)

Section SampleRuns.
Import Sample.

Local Abbreviation slist := (metricList unit scripted scriptedSink stackPool).

(** One element, one flush: the sink receives one buffer with the three
    records, the list is empty and one element was collected. *)
Example single_element_single_flush :
  exists l' : slist,
    Flush 25 26 (roomy [] elemABC) = Some l' /\
    handed (trace l') = [a1 ++ b2 ++ c3] /\
    Len l' = 0 /\ flushCollected (metrics l') = 1%Z /\
    flushSuccess (metrics l') = 1%Z.
Proof. eexists. split; [reflexivity|]. repeat split. Qed.

(** A rejected record in the middle: one buffer with the first and the
    third record, one encode error. *)
Example encode_error_mid_flush :
  exists l' : slist,
    Flush 25 26 (roomy [] elemA) = Some l' /\
    handed (trace l') = [a1 ++ c3] /\
    encodeErrors (metrics l') = 1%Z.
Proof. eexists. split; [reflexivity|]. repeat split. Qed.

(** A sink error: the flush completes, the error is counted, and the next
    flush proceeds. *)
Example sink_error_once :
  exists l' l'' : slist,
    Flush 25 26 (roomy [true] elemB) = Some l' /\
    flushErrors (metrics l') = 1%Z /\ flushSuccess (metrics l') = 0%Z /\
    Buffer (encoder l') = [] /\ Len l' = 1 /\
    Flush 10000000025 10000000026 l' = Some l'' /\ Len l'' = 0.
Proof.
  eexists. eexists. split; [vm_compute; reflexivity|].
  do 4 (split; [reflexivity|]). split; [vm_compute; reflexivity|reflexivity].
Qed.

(** Chunking with a flush size of 2: the three hand-offs of the sample
    list, each made of whole records. *)
Example chunking :
  exists l' : slist,
    Flush 25 26 loaded = Some l' /\
    handed (trace l') = [a1; c3; b2] /\
    currentAtHandOff (trace l') = [c3; b2; []].
Proof. eexists. split; [vm_compute; reflexivity|]. split; reflexivity. Qed.

Lemma fresh_wholeInv : wholeInv fresh.
Proof.
  repeat split; [exists []; split; [constructor|reflexivity]|constructor].
Defined.

(** With [a1] in the buffer and a flush size of 2, encoding [b2] makes
    the buffer 3 bytes long; the sink receives [a1] alone. *)
Lemma split_hands_off_bytes_before_record_witness :
  handed (trace (aggMetricFn (emit b2 0) oneByte)) = [a1] /\
  Buffer (encoder (aggMetricFn (emit b2 0) oneByte)) = b2.
Proof.
  assert (Hinv : wholeInv oneByte) by exact (aggMetricFn_wholeInv _ _ fresh_wholeInv).
  assert (Hge : (maxFlushSize oneByte
                 <= Z.of_nat (length (Buffer (encoder oneByte)) + length b2))%Z)
    by (vm_compute; discriminate).
  pose proof (split_hands_off_bytes_before_record (emit b2 0) b2 oneByte
                Hinv eq_refl Hge) as (Hh & _ & Hb & _).
  split; [exact Hh|exact Hb].
Defined.

(** In that split the buffer handed to the sink has length
    [sizeBefore = 1], not [sizeBefore] plus the 2 bytes of the record
    just encoded. *)
Lemma split_handed_length_is_size_before :
  let sizeBefore := length (Buffer (encoder oneByte)) in
  let l' := aggMetricFn (emit b2 0) oneByte in
  encodeRecord (toRecord (emit b2 0)) = Encoded b2 /\
  (maxFlushSize oneByte <= Z.of_nat (sizeBefore + length b2))%Z /\
  handed (trace l') = [a1] /\
  length a1 = sizeBefore /\
  length a1 <> sizeBefore + length b2.
Proof.
  cbv zeta. split; [reflexivity|]. split; [vm_compute; discriminate|].
  split; [reflexivity|]. split; [reflexivity|]. vm_compute. discriminate.
Qed.


Lemma encode_failure_drops_sample_witness :
  (EncodeChunkedMetricWithPolicy (toRecord (failing b2)) (encoder oneByte)).2 = true /\
  Buffer (encoder (aggMetricFn (failing b2) oneByte)) = a1 /\
  encodeErrors (metrics (aggMetricFn (failing b2) oneByte)) = 1%Z.
Proof.
  split; [reflexivity|].
  pose proof (encode_failure_drops_sample (failing b2) oneByte eq_refl)
    as (Hb & _ & _ & _ & Hc & _).
  split; [exact Hb|exact Hc].
Defined.

Lemma Flush_keeps_unfinished_witness :
  exists l' : slist,
    NoDup (elemId <$> aggregations loaded) /\
    Flush 25 26 loaded = Some l' /\ Len l' = 1 /\
    closedElems (trace l') = [0].
Proof.
  assert (Hnd : NoDup (elemId <$> aggregations loaded)).
  { apply (run_distinctHandles pushes fresh loaded eq_refl).
    apply newMetricList_distinctHandles. }
  eexists. split; [exact Hnd|]. split; [reflexivity|].
  pose proof (Flush_keeps_unfinished 25 26 loaded _ Hnd eq_refl)
    as (Hlen & _ & _ & Hcl & _).
  split; [exact Hlen|exact Hcl].
Defined.

Lemma Flush_consumes_every_handle_witness :
  Forall (fun e => is_Some (elemValue e)) (aggregations loaded) /\
  exists l' : slist,
    Flush 25 26 loaded = Some l' /\ consumed (trace l') = [0; 1].
Proof.
  assert (Hall : Forall (fun e => is_Some (elemValue e)) (aggregations loaded)).
  { repeat constructor; eexists; reflexivity. }
  split; [exact Hall|].
  destruct (proj1 (Flush_consumes_every_handle 25 26 loaded) Hall)
    as (l' & HF & Hco).
  exists l'. split; [exact HF|exact Hco].
Defined.

(** With a nil payload in the list the flush panics; the handle is not
    skipped and the element behind it is not consumed. *)
Lemma Flush_nil_payload_panics :
  elemValue <$> aggregations nilHead = [None; Some elemB] /\
  Flush 25 26 nilHead = None.
Proof. split; reflexivity. Qed.

Lemma PushBack_closed_or_appends_witness :
  (exists l' : slist,
     run [OpFlush 25 26] (Close loaded) = Some l' /\
     PushBack (Some elemA) l' = (l', (None, Some errListClosed))) /\
  closed loaded = false /\
  (PushBack (Some elemA) loaded).2 = (Some 2, None).
Proof.
  destruct (PushBack_closed_or_appends loaded (Some elemA)) as (Hcl & Hop).
  split; [|split; [reflexivity|]].
  - eexists. split; [reflexivity|]. apply (Hcl [OpFlush 25 26]). reflexivity.
  - destruct (Hop eq_refl) as (l' & Hpb & _). rewrite Hpb. reflexivity.
Defined.

Lemma flushInterval_is_max_witness :
  exists l : slist,
    run (pushes ++ [OpFlush 25 26; OpClose])
      (newMetricList 5 (sampleOpts 64 [] [])) = Some l /\
    FlushInterval l = 1000000000%Z.
Proof.
  eexists. split; [vm_compute; reflexivity|].
  match goal with |- FlushInterval ?l = _ =>
    assert (Hrun : run (pushes ++ [OpFlush 25 26; OpClose])
                     (newMetricList 5 (sampleOpts 64 [] [])) = Some l)
      by (vm_compute; reflexivity);
    destruct (proj2 (flushInterval_is_max 5 (sampleOpts 64 [] []))
                (pushes ++ [OpFlush 25 26; OpClose]) l Hrun)
      as (Hr & Ho & Hf & _)
  end.
  rewrite Hf, Hr, Ho. reflexivity.
Defined.

Lemma FindOrCreate_same_list_witness :
  ls_closed registry = false /\
  exists p ls1 σ1,
    Lists.FindOrCreate 10 registry emptyStore = (ls1, σ1, (Some p, None)) /\
    let '(ls2, σ2) := Lists.findOrCreateAll [60%Z; 10%Z; 3600%Z] ls1 σ1 in
    Lists.FindOrCreate 10 ls2 σ2 = (ls2, σ2, (Some p, None)).
Proof.
  split; [reflexivity|].
  destruct (proj1 (FindOrCreate_same_list 10 registry emptyStore) eq_refl)
    as (p & ls1 & σ1 & Hf & Hagain).
  exists p, ls1, σ1. split; [exact Hf|]. exact (Hagain [60%Z; 10%Z; 3600%Z]).
Defined.

Lemma Close_n_times_is_once_witness :
  1 <= 3 /\
  closeTimes 3 loaded = Close loaded /\
  Lists.closeTimes 3 registry emptyStore = Lists.Close registry emptyStore.
Proof.
  assert (H3 : 1 <= 3) by lia.
  destruct (Close_n_times_is_once (Policy := unit) (Elem := scripted)
              (Sink := scriptedSink) (Pool := stackPool) 3 H3) as (Hl & Hr & _).
  split; [exact H3|]. split; [apply Hl|apply Hr].
Defined.

Lemma Flush_leaves_buffer_empty_witness :
  exists l' : slist,
    Flush 25 26 loaded = Some l' /\ Buffer (encoder l') = [] /\
    flushErrors (metrics l') = 1%Z.
Proof.
  eexists. split; [reflexivity|].
  split; [|reflexivity].
  exact (proj1 (Flush_leaves_buffer_empty 25 26 loaded _ eq_refl)).
Defined.

End SampleRuns.

(** * Further properties *)

(** ** Invariants of runs *)

Section RunInvariants.
Context {Policy Elem Sink Pool : Type}.
Context `{!metricElem Policy Elem, !RecordFormat Policy,
          !Handler Sink, !BufferedEncoderPool Pool}.

Local Abbreviation mlist := (metricList Policy Elem Sink Pool).

Lemma flushErrorLogs_app (t1 t2 : list (Event Policy)) :
  flushErrorLogs (t1 ++ t2) = flushErrorLogs t1 ++ flushErrorLogs t2.
Proof. apply omap_app. Qed.

Lemma boundaries_app (t1 t2 : list (Event Policy)) :
  boundaries (t1 ++ t2) = boundaries t1 ++ boundaries t2.
Proof. apply omap_app. Qed.

(** A property of the encoder, the trace and the counters that every
    emission, every bookkeeping event of the loop and the tail flush keep
    is kept by [Flush]. *)
Lemma Flush_preserves (P : mlist -> Prop) :
  (forall l l', sameView l l' -> P l -> P l') ->
  (forall e l, P l -> P (aggMetricFn e l)) ->
  (forall h B l, P l -> P (log (EvConsume h B) l)) ->
  (forall h l, P l -> P (log (EvElemClose h) l)) ->
  (forall l, P l -> P (flushRemaining l)) ->
  forall start finish l l', Flush start finish l = Some l' -> P l -> P l'.
Proof.
  intros Hview Hemit Hcons Hclose Htail start finish l l' HF HP.
  assert (HemitAll : forall ems l0, P l0 -> P (emitAll ems l0)).
  { intros ems; induction ems as [|e ems IH]; intros l0 HP0; [exact HP0|].
    rewrite emitAll_cons. apply IH, Hemit, HP0. }
  assert (Hafter : forall B h ems done l0, P l0 -> P (afterElem B h ems done l0)).
  { intros B h ems done l0 HP0. unfold afterElem.
    pose proof (HemitAll ems _ (Hcons h B l0 HP0)) as HP1.
    destruct done; [|exact HP1].
    eapply Hview; [|exact (Hclose h _ HP1)]. repeat split. }
  assert (Hloop : forall B es es' l0 l1,
             flushLoop B es l0 = Some (es', l1) -> P l0 -> P l1).
  { intros B es; induction es as [|e es IH]; intros es' l0 l1.
    - cbn. intros [= <- <-] HP0. exact HP0.
    - destruct (elemValue e) as [x|] eqn:Hx; [|cbn; rewrite Hx; discriminate].
      rewrite (flushLoop_cons B e es l0 x Hx).
      destruct (flushLoop B es _) as [[rest l2]|] eqn:Hrec; [|discriminate].
      intros [= <- <-] HP0. eapply IH; [exact Hrec|]. apply Hafter, HP0. }
  apply Flush_unfold in HF as (aggs & l1 & Hl & _ & ->).
  apply Hloop in Hl; [|eapply Hview; [|exact HP]; repeat split].
  eapply Hview; [|apply Htail; eapply Hview; [|exact Hl]]; repeat split.
Qed.

Lemma run_preserves (P : mlist -> Prop) :
  (forall l l', sameView l l' -> P l -> P l') ->
  (forall e l, P l -> P (aggMetricFn e l)) ->
  (forall h B l, P l -> P (log (EvConsume h B) l)) ->
  (forall h l, P l -> P (log (EvElemClose h) l)) ->
  (forall l, P l -> P (flushRemaining l)) ->
  forall (ops : list Op) l l', run ops l = Some l' -> P l -> P l'.
Proof.
  intros Hview Hemit Hcons Hclose Htail ops.
  induction ops as [|op ops IH]; intros l l'; cbn.
  - intros [= <-]; auto.
  - destruct (step op l) as [l1|] eqn:Hs; [|discriminate].
    intros Hr HP. eapply IH; [exact Hr|].
    destruct op as [v| |s f]; cbn in Hs.
    + injection Hs as <-. eapply Hview; [|exact HP].
      unfold PushBack. destruct (closed l); repeat split.
    + injection Hs as <-. eapply Hview; [|exact HP].
      unfold Close. destruct (closed l); repeat split.
    + eapply Flush_preserves; eassumption.
Qed.

(** The counters a hand-off moves. *)
Lemma handOff_counts (buf : bytes) (l : mlist) :
  exists err : bool,
    flushSuccess (metrics (handOff buf l)) =
      (flushSuccess (metrics l) + (if err then 0 else 1))%Z /\
    flushErrors (metrics (handOff buf l)) =
      (flushErrors (metrics l) + (if err then 1 else 0))%Z /\
    flushErrorLogs (trace (handOff buf l)) =
      flushErrorLogs (trace l) ++ (if err then [tt] else []) /\
    encodeErrors (metrics (handOff buf l)) = encodeErrors (metrics l) /\
    maxFlushSize (handOff buf l) = maxFlushSize l.
Proof.
  unfold handOff.
  destruct (Handle (flushHandler (log _ l)) buf) as [s err].
  exists err. destruct err; cbn [metrics trace set_metrics set_flushHandler log
    maxFlushSize inc_flushErrors inc_flushSuccess flushSuccess flushErrors
    encodeErrors]; rewrite !flushErrorLogs_app; cbn; rewrite ?app_nil_r;
    repeat split; lia.
Qed.

Lemma handOff_accounted (buf : bytes) (l : mlist) :
  accounted l -> accounted (handOff buf l).
Proof.
  intros (Herr & Hsink & Hlog & Henc). unfold accounted.
  destruct (handOff_counts buf l) as (err & -> & -> & -> & -> & _).
  destruct (handOff_projections buf l) as (-> & _ & -> & _).
  destruct (handOff_frame buf l) as (_ & _ & _ & _ & _ & ->).
  rewrite !length_app. cbn.
  repeat split; [exact Herr| | |exact Henc]; destruct err; cbn; lia.
Qed.

Lemma okRecords_accepted (mp : ChunkedMetricWithPolicy Policy) (r : bytes) :
  encodeRecord mp = Encoded r -> okRecords [mp] = [r].
Proof. intros Hok. unfold okRecords. cbn. rewrite Hok. reflexivity. Qed.

Lemma aggMetricFn_accounted (e : Emission Policy) (l : mlist) :
  accounted l -> accounted (aggMetricFn e l).
Proof.
  intros Hacc. pose proof Hacc as (Herr0 & Hsink & Hlog & Henc).
  destruct (aggMetricFn_cases e l) as [Hfail|(r & Herr & Hok & [Hlt|Hge])].
  - pose proof (encode_failed_not_ok e l Herr0 Hfail) as Hnone.
    rewrite (aggMetricFn_failed e l Hfail). unfold accounted.
    cbn [trace encoder encErr metrics inc_encodeErrors encodeErrors
         flushSuccess flushErrors].
    rewrite handed_app, flushErrorLogs_app, emitted_app, okRecords_app.
    change (emitted [EvEmit (toRecord e); EvLogEncodeError (toRecord e)])
      with [toRecord e].
    rewrite Hnone, !length_app. cbn. rewrite ?app_nil_r.
    repeat split; try assumption; lia.
  - rewrite (aggMetricFn_buffered e r l Herr Hok Hlt). unfold accounted.
    cbn [trace encoder encErr metrics].
    rewrite handed_app, flushErrorLogs_app, emitted_app, okRecords_app.
    change (emitted [EvEmit (toRecord e)]) with [toRecord e].
    rewrite (okRecords_accepted _ r Hok), !length_app. cbn.
    rewrite ?app_nil_r. repeat split; try assumption; lia.
  - rewrite (aggMetricFn_split e r l Herr Hok Hge).
    apply handOff_accounted. unfold accounted.
    cbn [trace encoder encErr metrics].
    rewrite handed_app, flushErrorLogs_app, emitted_app, okRecords_app.
    change (emitted [EvEmit (toRecord e)]) with [toRecord e].
    rewrite (okRecords_accepted _ r Hok), !length_app. cbn.
    rewrite ?app_nil_r. repeat split; try assumption; lia.
Qed.

Lemma accounted_view (l l' : mlist) : sameView l l' -> accounted l -> accounted l'.
Proof.
  intros (He & Ht & _ & Hee & Hfs & Hfe). unfold accounted.
  rewrite He, Ht, Hee, Hfs, Hfe. auto.
Qed.

Lemma accounted_quiet (ev : Event Policy) (l : mlist) :
  handed [ev] = [] -> flushErrorLogs [ev] = [] -> emitted [ev] = [] ->
  accounted l -> accounted (log ev l).
Proof.
  intros H1 H2 H3. unfold accounted, log. cbn [trace encoder metrics].
  rewrite handed_app, flushErrorLogs_app, emitted_app, H1, H2, H3, !app_nil_r.
  auto.
Qed.

Lemma flushRemaining_accounted (l : mlist) :
  accounted l -> accounted (flushRemaining l).
Proof.
  intros Hacc. destruct (decide (Buffer (encoder l) = [])) as [Hb|Hb].
  - rewrite (flushRemaining_empty l Hb). exact Hacc.
  - rewrite (flushRemaining_nonempty l Hb). apply handOff_accounted.
    destruct Hacc as (_ & Hsink & Hlog & Henc). repeat split; assumption.
Qed.

Lemma run_accounted (ops : list Op) (l l' : mlist) :
  run ops l = Some l' -> accounted l -> accounted l'.
Proof.
  apply (run_preserves accounted).
  - apply accounted_view.
  - apply aggMetricFn_accounted.
  - intros h B l0. apply accounted_quiet; reflexivity.
  - intros h l0. apply accounted_quiet; reflexivity.
  - apply flushRemaining_accounted.
Qed.

Lemma newMetricList_accounted (R : Z) (o : Options Sink Pool) :
  accounted (newMetricList R o : mlist).
Proof.
  unfold newMetricList. destruct (PoolGet (BufferedEncoderPool_ o)) as [b p].
  repeat split.
Qed.

(** X1: in every state a list reaches, each buffer handed to the sink
    was counted once, as a success or as an error, and each counted error
    was logged once. *)
Theorem handoffs_counted_once
    (R : Z) (o : Options Sink Pool) (ops : list Op) (l : mlist) :
  run ops (newMetricList R o) = Some l ->
  (flushSuccess (metrics l) + flushErrors (metrics l))%Z =
    Z.of_nat (length (handed (trace l))) /\
  flushErrors (metrics l) = Z.of_nat (length (flushErrorLogs (trace l))).
Proof.
  intros Hrun.
  destruct (run_accounted ops _ l Hrun (newMetricList_accounted R o))
    as (_ & Hsink & Hlog & _).
  split; [exact Hsink|exact Hlog].
Qed.

(** X2: in every state a list reaches, [encodeErrors] is the number of
    records passed to the encoder minus the number of records it
    accepted: every rejected record is counted, and only those. *)
Theorem encode_errors_count_rejected
    (R : Z) (o : Options Sink Pool) (ops : list Op) (l : mlist) :
  run ops (newMetricList R o) = Some l ->
  encodeErrors (metrics l) =
    (Z.of_nat (length (emitted (trace l))) -
     Z.of_nat (length (okRecords (emitted (trace l)))))%Z /\
  encErr (encoder l) = false.
Proof.
  intros Hrun.
  destruct (run_accounted ops _ l Hrun (newMetricList_accounted R o))
    as (Herr & _ & _ & Henc).
  split; [lia|exact Herr].
Qed.

(** *** The size of what the sink receives *)

Lemma boundedInv_view (l l' : mlist) : sameView l l' -> boundedInv l -> boundedInv l'.
Proof.
  intros (He & Ht & Hm & _). unfold boundedInv. rewrite He, Ht, Hm. auto.
Qed.

Lemma boundedInv_quiet (ev : Event Policy) (l : mlist) :
  handed [ev] = [] -> boundedInv l -> boundedInv (log ev l).
Proof.
  intros H1. unfold boundedInv, log. cbn [trace encoder maxFlushSize].
  rewrite handed_app, H1, app_nil_r. auto.
Qed.

Lemma handOff_boundedInv (buf : bytes) (l : mlist) :
  boundedBuffer (maxFlushSize l) buf -> boundedInv l ->
  boundedInv (handOff buf l).
Proof.
  intros Hbuf (Herr & Hcur & Hhanded). unfold boundedInv.
  destruct (handOff_counts buf l) as (_ & _ & _ & _ & _ & ->).
  destruct (handOff_projections buf l) as (-> & _).
  destruct (handOff_frame buf l) as (_ & _ & _ & _ & _ & ->).
  repeat split; [exact Herr|exact Hcur|].
  apply Forall_app. split; [exact Hhanded|]. constructor; [exact Hbuf|constructor].
Qed.

Lemma aggMetricFn_boundedInv (e : Emission Policy) (l : mlist) :
  boundedInv l -> boundedInv (aggMetricFn e l).
Proof.
  intros (Herr0 & Hcur & Hhanded).
  destruct (aggMetricFn_cases e l) as [Hfail|(r & Herr & Hok & [Hlt|Hge])].
  - rewrite (aggMetricFn_failed e l Hfail). unfold boundedInv.
    cbn [trace encoder encErr Buffer maxFlushSize].
    rewrite handed_app. cbn. rewrite app_nil_r. auto.
  - rewrite (aggMetricFn_buffered e r l Herr Hok Hlt). unfold boundedInv.
    cbn [trace encoder encErr Buffer maxFlushSize].
    rewrite handed_app. cbn. rewrite app_nil_r.
    repeat split; [|exact Hhanded]. right; left. exact Hlt.
  - rewrite (aggMetricFn_split e r l Herr Hok Hge).
    apply handOff_boundedInv; [exact Hcur|]. unfold boundedInv.
    cbn [trace encoder encErr Buffer maxFlushSize].
    rewrite handed_app. cbn. rewrite app_nil_r.
    repeat split; [|exact Hhanded]. right; right. eexists; exact Hok.
Qed.

Lemma flushRemaining_boundedInv (l : mlist) :
  boundedInv l -> boundedInv (flushRemaining l).
Proof.
  intros Hinv. destruct (decide (Buffer (encoder l) = [])) as [Hb|Hb].
  - rewrite (flushRemaining_empty l Hb). exact Hinv.
  - rewrite (flushRemaining_nonempty l Hb).
    destruct Hinv as (Herr & Hcur & Hhanded).
    apply handOff_boundedInv; [exact Hcur|].
    repeat split; [left; reflexivity|exact Hhanded].
Qed.

(** X3: in a list built with an empty first buffer, every buffer handed
    to the sink is empty, or shorter than [MaxFlushSize], or exactly one
    record: only a record that alone reaches the flush size travels in a
    buffer that long. *)
Theorem handed_buffers_bounded
    (R : Z) (o : Options Sink Pool) (ops : list Op) (l : mlist) :
  (PoolGet (BufferedEncoderPool_ o)).1 = [] ->
  run ops (newMetricList R o) = Some l ->
  Forall (boundedBuffer (MaxFlushSize o)) (handed (trace l)) /\
  boundedBuffer (MaxFlushSize o) (Buffer (encoder l)).
Proof.
  intros Hpool Hrun.
  assert (Hinit : boundedInv (newMetricList R o : mlist)).
  { unfold newMetricList. destruct (PoolGet (BufferedEncoderPool_ o)) as [b p].
    cbn in Hpool. subst b. repeat split; [left; reflexivity|constructor]. }
  assert (Hinv : boundedInv l).
  { revert Hrun Hinit. apply (run_preserves boundedInv).
    - apply boundedInv_view.
    - apply aggMetricFn_boundedInv.
    - intros h B l0. apply boundedInv_quiet; reflexivity.
    - intros h l0. apply boundedInv_quiet; reflexivity.
    - apply flushRemaining_boundedInv. }
  destruct Hinv as (_ & Hcur & Hhanded).
  assert (Hmax : maxFlushSize l = MaxFlushSize o).
  { apply run_config in Hrun. rewrite newMetricList_config in Hrun.
    unfold config in Hrun. congruence. }
  rewrite Hmax in Hcur, Hhanded. auto.
Qed.

End RunInvariants.

(** ** More on [Flush] *)

Section FlushMore.
Context {Policy Elem Sink Pool : Type}.
Context `{!metricElem Policy Elem, !RecordFormat Policy,
          !Handler Sink, !BufferedEncoderPool Pool}.

Local Abbreviation mlist := (metricList Policy Elem Sink Pool).

(** *** A flush in which no record is accepted *)

Lemma untouched_trans (l1 l2 l3 : mlist) :
  untouched l1 l2 -> untouched l2 l3 -> untouched l1 l3.
Proof.
  intros (H1 & H2 & H3 & H4 & H5) (K1 & K2 & K3 & K4 & K5).
  repeat split; congruence.
Qed.

Lemma aggMetricFn_rejected (e : Emission Policy) (l : mlist) :
  encErr (encoder l) = false -> okRecords [toRecord e] = [] ->
  untouched l (aggMetricFn e l).
Proof.
  intros Herr Hnone.
  assert (Hfail : (EncodeChunkedMetricWithPolicy (toRecord e) (encoder l)).2 = true).
  { unfold EncodeChunkedMetricWithPolicy. rewrite Herr.
    unfold okRecords in Hnone. cbn in Hnone.
    destruct (encodeRecord (toRecord e)); [discriminate|reflexivity]. }
  rewrite (aggMetricFn_failed e l Hfail). unfold untouched.
  cbn [encoder trace metrics flushHandler].
  rewrite handed_app. cbn. rewrite app_nil_r.
  repeat split. destruct (encoder l) as [b err]. cbn in Herr. subst err.
  reflexivity.
Qed.

Lemma emitAll_rejected (ems : list (Emission Policy)) (l : mlist) :
  encErr (encoder l) = false -> okRecords (toRecord <$> ems) = [] ->
  untouched l (emitAll ems l).
Proof.
  revert l; induction ems as [|e ems IH]; intros l Herr Hnone; [repeat split|].
  rewrite emitAll_cons.
  change (toRecord <$> e :: ems) with ([toRecord e] ++ (toRecord <$> ems)) in Hnone.
  rewrite okRecords_app in Hnone. apply app_eq_nil in Hnone as (H1 & H2).
  pose proof (aggMetricFn_rejected e l Herr H1) as Hone.
  eapply untouched_trans; [exact Hone|]. apply IH; [|exact H2].
  destruct Hone as (-> & _). exact Herr.
Qed.

Lemma afterElem_rejected B h (ems : list (Emission Policy)) done (l : mlist) :
  encErr (encoder l) = false -> okRecords (toRecord <$> ems) = [] ->
  untouched l (afterElem B h ems done l).
Proof.
  intros Herr Hnone. unfold afterElem.
  assert (Hlog : forall ev (l0 : mlist), handed [ev] = [] -> untouched l0 (log ev l0)).
  { intros ev l0 Hev. unfold untouched, log.
    cbn [encoder trace metrics flushHandler].
    rewrite handed_app, Hev, app_nil_r. repeat split. }
  pose proof (Hlog (EvConsume h B) l eq_refl) as H1.
  pose proof (emitAll_rejected ems (log (EvConsume h B) l) Herr Hnone) as H2.
  pose proof (untouched_trans _ _ _ H1 H2) as H12.
  destruct done; [|exact H12].
  eapply untouched_trans; [exact H12|].
  eapply untouched_trans; [apply (Hlog (EvElemClose h) _ eq_refl)|].
  repeat split.
Qed.

Lemma flushLoop_rejected B (es es' : list (Element Elem)) (l l' : mlist) :
  flushLoop B es l = Some (es', l') ->
  encErr (encoder l) = false ->
  okRecords (toRecord <$> emissionsOf B es) = [] ->
  untouched l l'.
Proof.
  revert es' l; induction es as [|e es IH]; intros es' l.
  - cbn. intros [= <- <-] _ _. repeat split.
  - destruct (elemValue e) as [x|] eqn:Hx; [|cbn; rewrite Hx; discriminate].
    rewrite (flushLoop_cons B e es l x Hx).
    destruct (flushLoop B es _) as [[rest l1]|] eqn:Hrec; [|discriminate].
    intros [= <- <-] Herr Hnone.
    assert (Hems : emissionsOf B (e :: es) = (Consume x B).1.2 ++ emissionsOf B es).
    { cbn. rewrite Hx. reflexivity. }
    rewrite Hems, fmap_app, okRecords_app in Hnone.
    apply app_eq_nil in Hnone as (H1 & H2).
    pose proof (afterElem_rejected B (elemId e) (Consume x B).1.2
                  (Consume x B).2 l Herr H1) as Hone.
    eapply untouched_trans; [exact Hone|]. eapply IH; [exact Hrec| |exact H2].
    destruct Hone as (-> & _). exact Herr.
Qed.

(** X4: a flush that starts with an empty buffer and in which no record
    is accepted (no element emits, or every emitted record is rejected)
    does not call the sink. *)
Theorem Flush_without_records_skips_sink start finish (l l' : mlist) :
  encErr (encoder l) = false ->
  Buffer (encoder l) = [] ->
  okRecords (toRecord <$> emissionsOf (alignedStart start l) (aggregations l)) = [] ->
  Flush start finish l = Some l' ->
  handed (trace l') = handed (trace l) /\
  flushSuccess (metrics l') = flushSuccess (metrics l) /\
  flushErrors (metrics l') = flushErrors (metrics l) /\
  flushHandler l' = flushHandler l.
Proof.
  intros Herr Hbuf Hnone HF.
  apply Flush_unfold in HF as (aggs & l1 & Hloop & _ & ->).
  destruct (flushLoop_rejected _ _ _ _ _ Hloop Herr Hnone)
    as (He & Hh & Hs & Hf & Hsink).
  assert (Hempty : Buffer (encoder (set_aggregations aggs l1)) = []).
  { cbn. rewrite He. exact Hbuf. }
  unfold flushCollect. rewrite (flushRemaining_empty _ Hempty).
  cbn. auto.
Qed.

(** *** What the sink answers does not change what it is handed *)

Lemma sameEffect_refl (l1 l2 : mlist) :
  encoder l1 = encoder l2 -> maxFlushSize l1 = maxFlushSize l2 ->
  sameEffect l1 l2 l1 l2.
Proof.
  intros He Hm. repeat split; [exact He|exact Hm|].
  exists []. rewrite !app_nil_r. auto.
Qed.

Lemma sameEffect_trans (l1 l2 m1 m2 n1 n2 : mlist) :
  sameEffect l1 l2 m1 m2 -> sameEffect m1 m2 n1 n2 -> sameEffect l1 l2 n1 n2.
Proof.
  intros (_ & _ & d1 & Ha1 & Ha2) (He & Hm & d2 & Hb1 & Hb2).
  repeat split; [exact He|exact Hm|].
  exists (d1 ++ d2). rewrite Hb1, Hb2, Ha1, Ha2, <- !app_assoc. auto.
Qed.

Lemma aggMetricFn_maxFlushSize (e : Emission Policy) (l : mlist) :
  maxFlushSize (aggMetricFn e l) = maxFlushSize l.
Proof.
  destruct (processAggregatedMetric_frame (em_idPrefix e) (em_id e)
              (em_idSuffix e) (em_timeNanos e) (em_value e) (em_policy e) l)
    as (Hc & _).
  unfold config in Hc. unfold aggMetricFn. congruence.
Qed.

Lemma aggMetricFn_sameEffect (e : Emission Policy) (l1 l2 : mlist) :
  encoder l1 = encoder l2 -> maxFlushSize l1 = maxFlushSize l2 ->
  sameEffect l1 l2 (aggMetricFn e l1) (aggMetricFn e l2).
Proof.
  intros He Hm. unfold sameEffect. rewrite !aggMetricFn_maxFlushSize.
  destruct (aggMetricFn_cases e l1) as [Hfail|(r & Herr & Hok & [Hlt|Hge])].
  - pose proof Hfail as Hfail2. rewrite He in Hfail2.
    rewrite (aggMetricFn_failed e l1 Hfail), (aggMetricFn_failed e l2 Hfail2).
    cbn [encoder trace]. rewrite !handed_app, He. cbn.
    repeat split; [exact Hm|]. exists []. auto.
  - pose proof Herr as Herr2. pose proof Hlt as Hlt2.
    rewrite He in Herr2. rewrite He, Hm in Hlt2.
    rewrite (aggMetricFn_buffered e r l1 Herr Hok Hlt),
      (aggMetricFn_buffered e r l2 Herr2 Hok Hlt2).
    cbn [encoder trace]. rewrite !handed_app, He. cbn.
    repeat split; [exact Hm|]. exists []. auto.
  - pose proof Herr as Herr2. pose proof Hge as Hge2.
    rewrite He in Herr2. rewrite He, Hm in Hge2.
    rewrite (aggMetricFn_split e r l1 Herr Hok Hge),
      (aggMetricFn_split e r l2 Herr2 Hok Hge2).
    repeat match goal with |- context [handOff ?b ?x] =>
      let Hh := fresh "Hh" in let Hen := fresh "Hen" in
      destruct (handOff_projections b x) as (Hh & _);
      destruct (handOff_frame b x) as (_ & _ & _ & _ & _ & Hen);
      rewrite Hh, Hen; clear Hh Hen end.
    cbn [encoder trace]. rewrite !handed_app, He. cbn.
    repeat split; [exact Hm|]. exists [Buffer (encoder l2)].
    rewrite !app_nil_r. auto.
Qed.

Lemma emitAll_sameEffect (ems : list (Emission Policy)) (l1 l2 : mlist) :
  encoder l1 = encoder l2 -> maxFlushSize l1 = maxFlushSize l2 ->
  sameEffect l1 l2 (emitAll ems l1) (emitAll ems l2).
Proof.
  revert l1 l2; induction ems as [|e ems IH]; intros l1 l2 He Hm.
  - apply sameEffect_refl; assumption.
  - rewrite !emitAll_cons.
    pose proof (aggMetricFn_sameEffect e l1 l2 He Hm) as Hone.
    eapply sameEffect_trans; [exact Hone|].
    destruct Hone as (He' & Hm' & _). apply IH; assumption.
Qed.

Lemma log_sameEffect (ev : Event Policy) (l1 l2 : mlist) :
  handed [ev] = [] ->
  encoder l1 = encoder l2 -> maxFlushSize l1 = maxFlushSize l2 ->
  sameEffect l1 l2 (log ev l1) (log ev l2).
Proof.
  intros Hev He Hm. repeat split; [exact He|exact Hm|].
  exists []. unfold log. cbn [trace]. rewrite !handed_app, Hev. auto.
Qed.

Lemma afterElem_sameEffect B h (ems : list (Emission Policy)) done (l1 l2 : mlist) :
  encoder l1 = encoder l2 -> maxFlushSize l1 = maxFlushSize l2 ->
  sameEffect l1 l2 (afterElem B h ems done l1) (afterElem B h ems done l2).
Proof.
  intros He Hm. unfold afterElem.
  pose proof (log_sameEffect (EvConsume h B) l1 l2 eq_refl He Hm) as H1.
  assert (H2 : sameEffect l1 l2 (emitAll ems (log (EvConsume h B) l1))
                 (emitAll ems (log (EvConsume h B) l2))).
  { eapply sameEffect_trans; [exact H1|].
    destruct H1 as (He1 & Hm1 & _). apply emitAll_sameEffect; assumption. }
  destruct done; [|exact H2].
  eapply sameEffect_trans; [exact H2|]. destruct H2 as (He2 & Hm2 & _).
  pose proof (log_sameEffect (EvElemClose h) _ _ eq_refl He2 Hm2)
    as (He3 & Hm3 & d & Hd1 & Hd2).
  repeat split; [exact He3|exact Hm3|]. exists d. auto.
Qed.

Lemma flushLoop_sameEffect B (es es1 es2 : list (Element Elem))
    (l1 l2 l1' l2' : mlist) :
  flushLoop B es l1 = Some (es1, l1') ->
  flushLoop B es l2 = Some (es2, l2') ->
  encoder l1 = encoder l2 -> maxFlushSize l1 = maxFlushSize l2 ->
  sameEffect l1 l2 l1' l2'.
Proof.
  revert es1 es2 l1 l2; induction es as [|e es IH]; intros es1 es2 l1 l2.
  - cbn. intros [= <- <-] [= <- <-]. apply sameEffect_refl.
  - destruct (elemValue e) as [x|] eqn:Hx; [|cbn; rewrite Hx; discriminate].
    rewrite !(flushLoop_cons B e es _ x Hx).
    destruct (flushLoop B es (afterElem _ _ _ _ l1)) as [[r1 m1]|] eqn:Hrec1;
      [|discriminate].
    destruct (flushLoop B es (afterElem _ _ _ _ l2)) as [[r2 m2]|] eqn:Hrec2;
      [|discriminate].
    intros [= <- <-] [= <- <-] He Hm.
    pose proof (afterElem_sameEffect B (elemId e) (Consume x B).1.2
                  (Consume x B).2 l1 l2 He Hm) as Hone.
    eapply sameEffect_trans; [exact Hone|]. destruct Hone as (He' & Hm' & _).
    eapply IH; eassumption.
Qed.

Lemma flushRemaining_sameEffect (l1 l2 : mlist) :
  encoder l1 = encoder l2 -> maxFlushSize l1 = maxFlushSize l2 ->
  sameEffect l1 l2 (flushRemaining l1) (flushRemaining l2).
Proof.
  intros He Hm.
  destruct (flushRemaining_frame l1) as (Hc1 & _).
  destruct (flushRemaining_frame l2) as (Hc2 & _).
  assert (Hm' : maxFlushSize (flushRemaining l1) = maxFlushSize (flushRemaining l2)).
  { unfold config in Hc1, Hc2. congruence. }
  destruct (decide (Buffer (encoder l1) = [])) as [Hb|Hb].
  - assert (Hb2 : Buffer (encoder l2) = []) by (rewrite <- He; exact Hb).
    rewrite (flushRemaining_empty l1 Hb), (flushRemaining_empty l2 Hb2).
    apply sameEffect_refl; assumption.
  - assert (Hb2 : Buffer (encoder l2) <> []) by (rewrite <- He; exact Hb).
    repeat split; [|exact Hm'|].
    + rewrite (flushRemaining_nonempty l1 Hb), (flushRemaining_nonempty l2 Hb2).
      repeat match goal with |- context [handOff ?b ?x] =>
        let Hen := fresh "Hen" in
        destruct (handOff_frame b x) as (_ & _ & _ & _ & _ & Hen);
        rewrite Hen; clear Hen end.
      reflexivity.
    + exists [Buffer (encoder l1)].
      destruct (flushRemaining_effect l1) as (_ & _ & _ & -> & _).
      destruct (flushRemaining_effect l2) as (_ & _ & _ & -> & _).
      rewrite !decide_False by assumption. rewrite He. auto.
Qed.

(** X5: what a flush does to the elements and the encoder, and which
    buffers it hands to the sink, depends on the flush size, the
    resolution, the encoder and the elements only: two lists that agree
    on these but differ in the state of their sinks and pools, in their
    counters or in what happened before, flush alike. *)
Theorem Flush_same_whatever_the_sink start finish (l1 l2 l1' : mlist) :
  flushData l1 = flushData l2 ->
  Flush start finish l1 = Some l1' ->
  exists (l2' : mlist) (delta : list bytes),
    Flush start finish l2 = Some l2' /\
    flushData l1' = flushData l2' /\
    handed (trace l1') = handed (trace l1) ++ delta /\
    handed (trace l2') = handed (trace l2) ++ delta.
Proof.
  unfold flushData. intros [= Hm Hr He Ha] HF1.
  destruct (Flush_facts start finish l1 l1' HF1) as (Hall & Hag1 & _).
  assert (Hall2 : Forall (fun e => is_Some (elemValue e)) (aggregations l2))
    by (rewrite <- Ha; exact Hall).
  destruct (Flush_total start finish l2 Hall2) as [l2' HF2].
  destruct (Flush_facts start finish l2 l2' HF2) as (_ & Hag2 & _).
  destruct (Flush_frame start finish l1 l1' HF1) as (Hc1 & _).
  destruct (Flush_frame start finish l2 l2' HF2) as (Hc2 & _).
  assert (HB : alignedStart start l1 = alignedStart start l2)
    by (unfold alignedStart; rewrite Hr; reflexivity).
  apply Flush_unfold in HF1 as (aggs1 & m1 & Hloop1 & _ & Hl1).
  pose proof HF2 as HF2'.
  apply Flush_unfold in HF2' as (aggs2 & m2 & Hloop2 & _ & Hl2).
  rewrite HB, Ha in Hloop1.
  assert (Hloop : sameEffect l1 l2 (set_aggregations aggs1 m1)
                    (set_aggregations aggs2 m2))
    by exact (flushLoop_sameEffect _ _ _ _ _ _ _ _ Hloop1 Hloop2 He Hm).
  assert (Htail : sameEffect l1 l2
            (flushRemaining (set_aggregations aggs1 m1))
            (flushRemaining (set_aggregations aggs2 m2))).
  { eapply sameEffect_trans; [exact Hloop|]. destruct Hloop as (He' & Hm' & _).
    apply flushRemaining_sameEffect; assumption. }
  destruct Htail as (He3 & Hm3 & delta & Hd1 & Hd2).
  exists l2', delta. split; [exact HF2|].
  assert (Henc : encoder l1' = encoder l2') by (rewrite Hl1, Hl2; exact He3).
  unfold config in Hc1, Hc2. injection Hc1 as _ Hmx1 Hrs1 _.
  injection Hc2 as _ Hmx2 Hrs2 _.
  split; [|split; [rewrite Hl1; exact Hd1|rewrite Hl2; exact Hd2]].
  rewrite Hmx1, Hmx2, Hrs1, Hrs2, Henc, Hag1, Hag2, HB, Ha, Hm, Hr.
  reflexivity.
Qed.

(** *** A closed list still flushes *)

Lemma handOff_set_closed (b : bool) (buf : bytes) (l : mlist) :
  handOff buf (set_closed b l) = set_closed b (handOff buf l).
Proof.
  unfold handOff. cbn.
  destruct (Handle (flushHandler l) buf) as [s [|]]; reflexivity.
Qed.

Lemma aggMetricFn_set_closed (b : bool) (e : Emission Policy) (l : mlist) :
  aggMetricFn e (set_closed b l) = set_closed b (aggMetricFn e l).
Proof.
  unfold aggMetricFn, processAggregatedMetric. cbn.
  destruct (EncodeChunkedMetricWithPolicy _ (encoder l)) as [enc [|]]; cbn;
    [reflexivity|].
  destruct (Z.of_nat (length (Buffer enc)) <? maxFlushSize l)%Z; [reflexivity|].
  destruct (PoolGet (encoderPool l)) as [nb pool]. cbn.
  match goal with |- _ = set_closed b (handOff ?bf ?x) =>
    exact (handOff_set_closed b bf x) end.
Qed.

Lemma emitAll_set_closed (b : bool) (ems : list (Emission Policy)) (l : mlist) :
  emitAll ems (set_closed b l) = set_closed b (emitAll ems l).
Proof.
  revert l; induction ems as [|e ems IH]; intros l; [reflexivity|].
  rewrite !emitAll_cons, aggMetricFn_set_closed. apply IH.
Qed.

Lemma afterElem_set_closed (b : bool) B h ems done (l : mlist) :
  afterElem B h ems done (set_closed b l) = set_closed b (afterElem B h ems done l).
Proof.
  unfold afterElem.
  change (log (EvConsume h B) (set_closed b l))
    with (set_closed b (log (EvConsume h B) l)).
  rewrite emitAll_set_closed. destruct done; reflexivity.
Qed.

Lemma flushLoop_set_closed (b : bool) B (es : list (Element Elem)) (l : mlist) :
  flushLoop B es (set_closed b l) =
  (fun r => (r.1, set_closed b r.2)) <$> flushLoop B es l.
Proof.
  revert l; induction es as [|e es IH]; intros l; [reflexivity|].
  destruct (elemValue e) as [x|] eqn:Hx; [|cbn; rewrite Hx; reflexivity].
  rewrite !(flushLoop_cons B e es _ x Hx), afterElem_set_closed, IH.
  destruct (flushLoop B es _) as [[rest l1]|]; reflexivity.
Qed.

Lemma flushRemaining_set_closed (b : bool) (l : mlist) :
  flushRemaining (set_closed b l) = set_closed b (flushRemaining l).
Proof.
  destruct (decide (Buffer (encoder l) = [])) as [Hb|Hb].
  - rewrite (flushRemaining_empty l Hb).
    apply flushRemaining_empty. exact Hb.
  - rewrite (flushRemaining_nonempty l Hb).
    rewrite (flushRemaining_nonempty (set_closed b l) Hb).
    match goal with |- _ = set_closed b (handOff ?bf ?x) =>
      exact (handOff_set_closed b bf x) end.
Qed.

Lemma Flush_set_closed (b : bool) start finish (l : mlist) :
  Flush start finish (set_closed b l) = set_closed b <$> Flush start finish l.
Proof.
  unfold Flush, flushConsume.
  change (set_toCollect [] (set_closed b l)) with (set_closed b (set_toCollect [] l)).
  change (aggregations (set_closed b (set_toCollect [] l)))
    with (aggregations (set_toCollect [] l)).
  change (alignedStart start (set_closed b l)) with (alignedStart start l).
  rewrite flushLoop_set_closed.
  destruct (flushLoop _ _ (set_toCollect [] l)) as [[aggs l1]|]; [|reflexivity].
  cbn [fmap option_fmap option_map fst snd].
  change (set_aggregations aggs (set_closed b l1))
    with (set_closed b (set_aggregations aggs l1)).
  rewrite flushRemaining_set_closed. reflexivity.
Qed.

(** X6: [Flush] does not look at the closed flag: flushing a closed list
    does what flushing the open list does, and leaves it closed. *)
Theorem Flush_after_Close start finish (l : mlist) :
  Flush start finish (Close l) = Close <$> Flush start finish l.
Proof.
  unfold Close at 1. destruct (closed l) eqn:Hc.
  - destruct (Flush start finish l) as [l'|] eqn:HF; [|reflexivity].
    cbn. destruct (Flush_frame start finish l l' HF) as (_ & Hcl & _).
    unfold Close. rewrite Hcl, Hc. reflexivity.
  - rewrite Flush_set_closed.
    destruct (Flush start finish l) as [l'|] eqn:HF; [|reflexivity].
    cbn. destruct (Flush_frame start finish l l' HF) as (_ & Hcl & _).
    unfold Close. rewrite Hcl, Hc. reflexivity.
Qed.

(** *** The boundary, and the collection counter *)

(** The boundaries seen so far, and the two flush-level metrics. *)
Lemma handOff_quiet (buf : bytes) (l : mlist) :
  boundaries (trace (handOff buf l)) = boundaries (trace l) /\
  flushCollected (metrics (handOff buf l)) = flushCollected (metrics l) /\
  flushDuration (metrics (handOff buf l)) = flushDuration (metrics l).
Proof.
  unfold handOff.
  destruct (Handle (flushHandler (log _ l)) buf) as [s [|]];
    cbn [trace metrics set_metrics set_flushHandler log inc_flushErrors
         inc_flushSuccess flushCollected flushDuration];
    rewrite !boundaries_app; cbn; rewrite ?app_nil_r; auto.
Qed.

Lemma aggMetricFn_quiet (e : Emission Policy) (l : mlist) :
  boundaries (trace (aggMetricFn e l)) = boundaries (trace l) /\
  flushCollected (metrics (aggMetricFn e l)) = flushCollected (metrics l) /\
  flushDuration (metrics (aggMetricFn e l)) = flushDuration (metrics l).
Proof.
  destruct (aggMetricFn_cases e l) as [Hfail|(r & Herr & Hok & [Hlt|Hge])].
  - rewrite (aggMetricFn_failed e l Hfail). cbn [trace metrics].
    rewrite boundaries_app. cbn. rewrite app_nil_r. auto.
  - rewrite (aggMetricFn_buffered e r l Herr Hok Hlt). cbn [trace metrics].
    rewrite boundaries_app. cbn. rewrite app_nil_r. auto.
  - rewrite (aggMetricFn_split e r l Herr Hok Hge).
    match goal with |- context [handOff ?b ?x] =>
      destruct (handOff_quiet b x) as (-> & -> & ->) end.
    cbn [trace metrics]. rewrite boundaries_app. cbn. rewrite app_nil_r. auto.
Qed.

Lemma emitAll_quiet (ems : list (Emission Policy)) (l : mlist) :
  boundaries (trace (emitAll ems l)) = boundaries (trace l) /\
  flushCollected (metrics (emitAll ems l)) = flushCollected (metrics l) /\
  flushDuration (metrics (emitAll ems l)) = flushDuration (metrics l).
Proof.
  revert l; induction ems as [|e ems IH]; intros l; [auto|].
  rewrite emitAll_cons. destruct (IH (aggMetricFn e l)) as (-> & -> & ->).
  apply aggMetricFn_quiet.
Qed.

Lemma flushLoop_quiet B (es es' : list (Element Elem)) (l l' : mlist) :
  flushLoop B es l = Some (es', l') ->
  boundaries (trace l') = boundaries (trace l) ++ replicate (length es) B /\
  flushCollected (metrics l') = flushCollected (metrics l) /\
  flushDuration (metrics l') = flushDuration (metrics l).
Proof.
  revert es' l; induction es as [|e es IH]; intros es' l.
  - cbn. intros [= <- <-]. rewrite app_nil_r. auto.
  - destruct (elemValue e) as [x|] eqn:Hx; [|cbn; rewrite Hx; discriminate].
    rewrite (flushLoop_cons B e es l x Hx).
    destruct (flushLoop B es _) as [[rest l1]|] eqn:Hrec; [|discriminate].
    intros [= <- <-]. apply IH in Hrec as (-> & -> & ->).
    unfold afterElem.
    destruct (emitAll_quiet (Consume x B).1.2 (log (EvConsume (elemId e) B) l))
      as (Hb & Hc & Hd).
    assert (Hone : forall l0 : mlist,
      l0 = (if (Consume x B).2
            then set_toCollect
                   (toCollect (emitAll (Consume x B).1.2
                                 (log (EvConsume (elemId e) B) l)) ++ [elemId e])
                   (log (EvElemClose (elemId e))
                      (emitAll (Consume x B).1.2 (log (EvConsume (elemId e) B) l)))
            else emitAll (Consume x B).1.2 (log (EvConsume (elemId e) B) l)) ->
      boundaries (trace l0) = boundaries (trace l) ++ [B] /\
      flushCollected (metrics l0) = flushCollected (metrics l) /\
      flushDuration (metrics l0) = flushDuration (metrics l)).
    { intros l0 ->. destruct ((Consume x B).2);
        cbn [trace metrics set_toCollect log];
        rewrite ?boundaries_app, Hb, Hc, Hd; cbn [trace metrics log];
        rewrite ?boundaries_app; cbn; rewrite ?app_nil_r; auto. }
    destruct (Hone _ eq_refl) as (-> & -> & ->).
    rewrite <- app_assoc. auto.
Qed.

Lemma Time_Truncate_bounds (t d : Z) :
  (0 < d)%Z ->
  (Time_Truncate t d <= t < Time_Truncate t d + d)%Z /\
  ((Time_Truncate t d + unixToInternal) `mod` d = 0)%Z.
Proof.
  intros Hd. unfold Time_Truncate.
  destruct (Z.leb_spec d 0) as [Hle|_]; [lia|].
  pose proof (Z.mod_pos_bound (t + unixToInternal) d Hd) as Hr.
  split; [lia|].
  replace (t - (t + unixToInternal) `mod` d + unixToInternal)%Z
    with ((t + unixToInternal) - (t + unixToInternal) `mod` d)%Z by lia.
  rewrite Zminus_mod, Zmod_mod, Z.sub_diag. apply Zmod_0_l.
Qed.

Lemma Time_Truncate_mono (t u d : Z) :
  (t <= u)%Z -> (Time_Truncate t d <= Time_Truncate u d)%Z.
Proof.
  intros Htu. unfold Time_Truncate.
  destruct (Z.leb_spec d 0) as [Hle|Hd]; [exact Htu|].
  pose proof (Z.div_mod (t + unixToInternal) d ltac:(lia)) as Ht.
  pose proof (Z.div_mod (u + unixToInternal) d ltac:(lia)) as Hu.
  pose proof (Z.div_le_mono (t + unixToInternal) (u + unixToInternal) d
                ltac:(lia) ltac:(lia)) as Hq.
  nia.
Qed.

(** X7: every element of one flush is consumed at the same boundary, the
    start time truncated to the resolution: for a positive resolution the
    boundary is at most the start time, less than one resolution before
    it, and a multiple of the resolution counted from the zero time; for
    a resolution that is not positive it is the start time itself.  A
    later flush of the list never uses an earlier boundary. *)
Theorem Flush_consumes_at_one_boundary start finish (l l' : mlist) :
  Flush start finish l = Some l' ->
  let B := alignedStart start l in
  boundaries (trace l') =
    boundaries (trace l) ++ replicate (length (aggregations l)) B /\
  ((0 < resolution l)%Z ->
   (B <= start < B + resolution l)%Z /\
   ((B + unixToInternal) `mod` resolution l = 0)%Z) /\
  ((resolution l <= 0)%Z -> B = start) /\
  (forall later : Z, (start <= later)%Z -> (B <= alignedStart later l')%Z).
Proof.
  intros HF B.
  destruct (Flush_frame start finish l l' HF) as (Hc & _).
  assert (Hr : resolution l' = resolution l)
    by (unfold config in Hc; congruence).
  apply Flush_unfold in HF as (aggs & l1 & Hloop & _ & Hl').
  apply flushLoop_quiet in Hloop as (Hb & _).
  split; [|split; [|split]].
  - rewrite Hl'. unfold flushCollect. cbn [trace set_metrics set_aggregations].
    assert (Htail : boundaries (trace (flushRemaining (set_aggregations aggs l1)))
                    = boundaries (trace l1)).
    { destruct (decide (Buffer (encoder (set_aggregations aggs l1)) = [])) as [He|He].
      - rewrite (flushRemaining_empty _ He). reflexivity.
      - rewrite (flushRemaining_nonempty _ He).
        match goal with |- context [handOff ?b ?x] =>
          destruct (handOff_quiet b x) as (-> & _) end.
        reflexivity. }
    rewrite Htail. exact Hb.
  - intros Hpos. apply Time_Truncate_bounds, Hpos.
  - intros Hneg. unfold B, alignedStart, Time_Truncate.
    destruct (Z.leb_spec (resolution l) 0); [reflexivity|lia].
  - intros later Hlater. unfold B, alignedStart. rewrite Hr.
    apply Time_Truncate_mono, Hlater.
Qed.

Lemma length_filter_split {A} (P : A -> Prop) `{!forall x, Decision (P x)}
    (xs : list A) :
  length xs = length (filter P xs) + length (filter (fun x => ~ P x) xs).
Proof.
  induction xs as [|x xs IH]; [reflexivity|].
  rewrite !filter_cons. destruct (decide (P x)) as [HP|HP].
  - rewrite decide_False by tauto. cbn. lia.
  - rewrite decide_True by tauto. cbn. lia.
Qed.

(** X8: a flush of a list with distinct handles adds to [flushCollected]
    the number of handles it removed, which is the drop of [Len]; [Len]
    never grows in a flush; the handles removed are those left in the
    scratch slice; and the time between the two clock readings is
    recorded once. *)
Theorem Flush_counts_collected start finish (l l' : mlist) :
  NoDup (elemId <$> aggregations l) ->
  Flush start finish l = Some l' ->
  Len l' <= Len l /\
  flushCollected (metrics l') =
    (flushCollected (metrics l) + (Z.of_nat (Len l) - Z.of_nat (Len l')))%Z /\
  length (toCollect l') = Len l - Len l' /\
  (forall h, h ∈ toCollect l' ->
     h ∈ (elemId <$> aggregations l) /\ h ∉ (elemId <$> aggregations l')) /\
  flushDuration (metrics l') = flushDuration (metrics l) ++ [(finish - start)%Z].
Proof.
  intros Hnd HF.
  destruct (Flush_facts start finish l l' HF) as (_ & Hag & _).
  rewrite (collect_unfinished _ _ Hnd) in Hag.
  apply Flush_unfold in HF as (aggs & l1 & Hloop & _ & ->).
  pose proof Hloop as Hq. apply flushLoop_quiet in Hq as (_ & Hc & Hd).
  apply flushLoop_shape in Hloop as (_ & _ & Htc & _).
  set (B := alignedStart start l) in *.
  set (l2 := flushRemaining (set_aggregations aggs l1)) in *.
  assert (Htc2 : toCollect l2 =
                 elemId <$> filter (fun e => finished B e = true) (aggregations l)).
  { subst l2. destruct (flushRemaining_frame (set_aggregations aggs l1))
      as (_ & _ & _ & -> & _). exact Htc. }
  assert (Hm2 : flushCollected (metrics l2) = flushCollected (metrics l) /\
                flushDuration (metrics l2) = flushDuration (metrics l)).
  { subst l2.
    destruct (decide (Buffer (encoder (set_aggregations aggs l1)) = [])) as [He|He].
    - rewrite (flushRemaining_empty _ He). auto.
    - rewrite (flushRemaining_nonempty _ He).
      match goal with |- context [handOff ?b ?x] =>
        destruct (handOff_quiet b x) as (_ & -> & ->) end.
      auto. }
  destruct Hm2 as (Hc2 & Hd2).
  pose proof (length_filter_split (fun e => finished B e = true) (aggregations l))
    as Hsplit.
  assert (Hlen' : Len (flushCollect start finish l2) =
                  length (filter (fun e => finished B e <> true) (aggregations l))).
  { unfold Len. rewrite Hag, length_fmap. reflexivity. }
  assert (Htcl : toCollect (flushCollect start finish l2) = toCollect l2)
    by reflexivity.
  rewrite Htcl, Htc2, length_fmap, Hlen'.
  unfold Len.
  split; [lia|]. split; [|split; [lia|split]].
  - unfold flushCollect. cbn [metrics set_metrics record_flushDuration
      inc_flushCollected flushCollected set_aggregations toCollect].
    rewrite Htc2, length_fmap, Hc2. lia.
  - intros h (e & -> & He)%list_elem_of_fmap.
    apply list_elem_of_filter in He as (Hfin & He).
    split; [apply list_elem_of_fmap_2, He|].
    rewrite Hag, <- list_fmap_compose.
    intros (e' & Hid & Hin)%list_elem_of_fmap. cbn in Hid.
    rewrite elemId_afterConsume in Hid.
    apply list_elem_of_filter in Hin as (Hnf & Hin).
    assert (e' = e) as ->; [|congruence].
    clear -Hnd He Hin Hid. revert Hnd He Hin.
    generalize (aggregations l) as xs.
    induction xs as [|a xs IH]; intros Hnd He Hin;
      [by apply elem_of_nil in He|].
    rewrite fmap_cons in Hnd. apply NoDup_cons in Hnd as (Hna & Hnd).
    apply elem_of_cons in He as [->|He]; apply elem_of_cons in Hin as [->|Hin];
      try reflexivity.
    + exfalso. apply Hna. rewrite Hid. apply list_elem_of_fmap_2. exact Hin.
    + exfalso. apply Hna. rewrite <- Hid. apply list_elem_of_fmap_2. exact He.
    + apply IH; assumption.
  - unfold flushCollect. cbn [metrics set_metrics record_flushDuration
      inc_flushCollected flushDuration set_aggregations].
    rewrite Hd2. reflexivity.
Qed.

End FlushMore.

(** ** The registry in use *)

Section RegistryMore.
Context {Policy Elem Sink Pool : Type}.
Context `{!metricElem Policy Elem, !RecordFormat Policy,
          !Handler Sink, !BufferedEncoderPool Pool}.

Local Abbreviation mlist := (metricList Policy Elem Sink Pool).
Local Abbreviation mlists := (metricLists Policy Elem Sink Pool).
Local Abbreviation store := (Store Policy Elem Sink Pool).

(** The three outcomes of [FindOrCreate]. *)
Lemma FindOrCreate_cases (R : Z) (ls : mlists) (σ : store) :
  (ls_closed ls = true /\
   Lists.FindOrCreate R ls σ = (ls, σ, (None, Some errListsClosed))) \/
  (ls_closed ls = false /\ exists p, lists ls !! R = Some p /\
   Lists.FindOrCreate R ls σ = (ls, σ, (Some p, None))) \/
  (ls_closed ls = false /\ lists ls !! R = None /\
   Lists.FindOrCreate R ls σ =
   (mkMetricLists (ls_opts ls) (newMetricListFn ls) false
      (<[R := length (heap σ)]> (lists ls)),
    mkStore (heap σ ++ [newMetricListFn ls R (ls_opts ls)])
            (registered σ ++ [length (heap σ)]),
    (Some (length (heap σ)), None))).
Proof.
  destruct (ls_closed ls) eqn:Hc.
  - left. split; [reflexivity|]. apply FindOrCreate_closed, Hc.
  - right. destruct (lists ls !! R) as [p|] eqn:Hp.
    + left. split; [reflexivity|]. exists p. split; [reflexivity|].
      apply FindOrCreate_found; assumption.
    + right. split; [reflexivity|]. split; [reflexivity|].
      apply FindOrCreate_new; assumption.
Qed.

Lemma findOrCreateAll_count (rs : list Z) (ls : mlists) (σ : store) :
  ls_closed ls = false ->
  let '(ls', σ') := Lists.findOrCreateAll rs ls σ in
  ls_closed ls' = false /\
  dom (lists ls') = dom (lists ls) ∪ list_to_set rs /\
  length (heap σ') + size (lists ls) = length (heap σ) + size (lists ls').
Proof.
  revert ls σ; induction rs as [|r rs IH]; intros ls σ Hc; cbn.
  - split; [exact Hc|]. split; [|lia].
    rewrite (right_id_L ∅ (∪)). reflexivity.
  - destruct (FindOrCreate_cases r ls σ)
      as [(Hc' & _)|[(_ & p & Hp & ->)|(_ & Hp & ->)]]; [congruence| |].
    + specialize (IH ls σ Hc).
      destruct (Lists.findOrCreateAll rs ls σ) as [ls' σ'].
      destruct IH as (Hc2 & Hdom & Hlen). split; [exact Hc2|].
      split; [|exact Hlen].
      assert (Hr : r ∈ dom (lists ls)) by (apply elem_of_dom; eauto).
      apply set_eq. intros x.
      rewrite Hdom, ?list_to_set_cons, !elem_of_union, elem_of_singleton.
      split; [tauto|]. intros [?|[->|?]]; auto.
    + match goal with |- context [Lists.findOrCreateAll rs ?l1 ?s1] =>
        specialize (IH l1 s1 eq_refl);
        destruct (Lists.findOrCreateAll rs l1 s1) as [ls' σ'] end.
      cbn in IH. destruct IH as (Hc2 & Hdom & Hlen). split; [exact Hc2|].
      rewrite dom_insert_L in Hdom. split.
      { apply set_eq. intros x.
        rewrite Hdom, ?list_to_set_cons, !elem_of_union. tauto. }
      rewrite length_app in Hlen. cbn in Hlen.
      rewrite map_size_insert_None in Hlen by exact Hp. lia.
Qed.

(** X9: on a new registry, a sequence of [FindOrCreate] calls leaves one
    list per distinct resolution asked for: [Len] is the number of
    distinct resolutions, and that many lists were allocated. *)
Theorem Len_counts_distinct_resolutions
    (rs : list Z) (o : Options Sink Pool) (σ : store) :
  let '(ls', σ') := Lists.findOrCreateAll rs (Lists.newMetricLists o) σ in
  Lists.Len ls' = size (list_to_set rs : gset Z) /\
  dom (lists ls') = (list_to_set rs : gset Z) /\
  length (heap σ') = length (heap σ) + size (list_to_set rs : gset Z).
Proof.
  pose proof (findOrCreateAll_count rs (Lists.newMetricLists o) σ eq_refl) as Hcount.
  destruct (Lists.findOrCreateAll rs (Lists.newMetricLists o) σ) as [ls' σ'].
  destruct Hcount as (_ & Hdom & Hlen). cbn in Hdom, Hlen.
  rewrite dom_empty_L, (left_id_L ∅ (∪)) in Hdom.
  rewrite map_size_empty in Hlen.
  assert (Hsize : size (lists ls') = size (list_to_set rs : gset Z))
    by (rewrite <- Hdom; symmetry; apply size_dom).
  unfold Lists.Len. rewrite <- Hsize. repeat split; [exact Hdom|lia].
Qed.

(** *** The invariant of the registry and its store *)

Lemma registryOk_new (o : Options Sink Pool) :
  Lists.registryOk (Lists.newMetricLists o : mlists) (mkStore [] []).
Proof.
  repeat split. intros R p Hp. cbn in Hp. by rewrite lookup_empty in Hp.
Qed.

Lemma closeAll_shape (ps : list nat) (σ : store) :
  length (heap (foldl Lists.closeAt σ ps)) = length (heap σ) /\
  registered (foldl Lists.closeAt σ ps) = registered σ.
Proof.
  revert σ; induction ps as [|p ps IH]; intros σ; cbn; [auto|].
  destruct (IH (Lists.closeAt σ p)) as (-> & ->).
  unfold Lists.closeAt. cbn. rewrite length_alter. auto.
Qed.

Lemma Close_resolution (l : mlist) : Resolution (Close l) = Resolution l.
Proof. unfold Close. destruct (closed l); reflexivity. Qed.

Lemma regStep_registryOk (op : Lists.RegOp) (ls ls' : mlists) (σ σ' : store) :
  Lists.regStep op ls σ = Some (ls', σ') ->
  Lists.registryOk ls σ -> Lists.registryOk ls' σ'.
Proof.
  intros Hstep (Hfn & Hreg & Hbind). destruct op as [R| |p op]; cbn in Hstep.
  - destruct (FindOrCreate_cases R ls σ)
      as [(_ & Heq)|[(_ & p & _ & Heq)|(Hc & Hp & Heq)]];
      rewrite Heq in Hstep; injection Hstep as <- <-;
      [split; [|split]; assumption..|].
    split; [exact Hfn|]. split.
    + cbn. rewrite length_app, Hreg. cbn.
      rewrite Nat.add_1_r, seq_S. reflexivity.
    + cbn. intros R' p'. destruct (decide (R = R')) as [<-|Hne].
      * rewrite lookup_insert_eq. intros [= <-].
        exists (newMetricListFn ls R (ls_opts ls)).
        split; [apply list_lookup_middle; reflexivity|].
        split; [|discriminate].
        rewrite Hfn.
        pose proof (newMetricList_config (Policy := Policy) (Elem := Elem)
                      R (ls_opts ls)) as Hcfg.
        unfold config in Hcfg. unfold Resolution. congruence.
      * rewrite lookup_insert_ne by exact Hne. intros Hp'.
        destruct (Hbind R' p' Hp') as (l & Hl & Hr & _).
        exists l. split; [|split; [exact Hr|discriminate]].
        rewrite lookup_app_l; [exact Hl|]. eapply lookup_lt_Some, Hl.
  - injection Hstep as Hcl. unfold Lists.Close in Hcl.
    destruct (ls_closed ls) eqn:Hc; injection Hcl as <- <-.
    + split; [|split]; [assumption..|]. intros R p Hp.
      destruct (Hbind R p Hp) as (l & Hl & Hr & Hcl). exists l. auto.
    + cbn.
      destruct (closeAll_shape (map_to_list (lists ls)).*2 σ) as (Hlen & Hrg).
      split; [exact Hfn|]. split; [rewrite Hrg, Hlen; exact Hreg|].
      intros R p Hp. destruct (Hbind R p Hp) as (l & Hl & Hr & _).
      exists (Close l). rewrite closeAll_lookup, decide_True.
      * rewrite Hl. split; [reflexivity|].
        split; [rewrite Close_resolution; exact Hr|].
        intros _. apply Close_closed.
      * apply list_elem_of_fmap. exists (R, p). split; [reflexivity|].
        by apply elem_of_map_to_list.
  - destruct (heap σ !! p) as [l|] eqn:Hl; [|discriminate].
    destruct (step op l) as [l'|] eqn:Hs; [|discriminate].
    injection Hstep as <- <-. split; [exact Hfn|]. split.
    + cbn. rewrite length_insert. exact Hreg.
    + cbn. intros R q Hq. destruct (Hbind R q Hq) as (l0 & Hl0 & Hr & Hcl).
      destruct (decide (p = q)) as [->|Hne].
      * exists l'. rewrite list_lookup_insert_eq by (eapply lookup_lt_Some, Hl).
        split; [reflexivity|]. assert (l0 = l) as -> by congruence.
        pose proof (step_config op l l' Hs) as Hcfg. unfold config in Hcfg.
        split; [unfold Resolution in *; congruence|].
        intros Hc. eapply step_closed; [exact Hs|auto].
      * exists l0. rewrite list_lookup_insert_ne by exact Hne. auto.
Qed.

Lemma regRun_registryOk (ops : list Lists.RegOp) (ls ls' : mlists) (σ σ' : store) :
  Lists.regRun ops ls σ = Some (ls', σ') ->
  Lists.registryOk ls σ -> Lists.registryOk ls' σ'.
Proof.
  revert ls σ; induction ops as [|op ops IH]; intros ls σ; cbn.
  - intros [= <- <-]; auto.
  - destruct (Lists.regStep op ls σ) as [[ls1 σ1]|] eqn:Hs; [|discriminate].
    intros Hr Hok. eapply IH; [exact Hr|]. eapply regStep_registryOk; eassumption.
Qed.

(** X10: in every state reached from a new registry and an empty store
    by registry calls and by operations on the lists behind its pointers,
    each binding of the map leads to a list of the store whose resolution
    is the key, no two resolutions share a list, and the lists of the
    store are exactly the ones registered with the flush manager, once
    each and in creation order. *)
Theorem registry_lists_keep_resolution
    (ops : list Lists.RegOp) (o : Options Sink Pool) (ls : mlists) (σ : store) :
  Lists.regRun ops (Lists.newMetricLists o) (mkStore [] []) = Some (ls, σ) ->
  registered σ = seq 0 (length (heap σ)) /\
  (forall R p, lists ls !! R = Some p ->
     exists l, heap σ !! p = Some l /\ Resolution l = R) /\
  (forall R1 R2 p, lists ls !! R1 = Some p -> lists ls !! R2 = Some p -> R1 = R2).
Proof.
  intros Hrun.
  destruct (regRun_registryOk ops _ ls _ σ Hrun (registryOk_new o))
    as (_ & Hreg & Hbind).
  split; [exact Hreg|]. split.
  - intros R p Hp. destruct (Hbind R p Hp) as (l & Hl & Hr & _). eauto.
  - intros R1 R2 p H1 H2.
    destruct (Hbind R1 p H1) as (l1 & Hl1 & Hr1 & _).
    destruct (Hbind R2 p H2) as (l2 & Hl2 & Hr2 & _).
    congruence.
Qed.

(** *** [Tick] *)

Lemma tick_fold (σ : store) (kvs : list (Z * nat)) :
  NoDup kvs.*1 ->
  (forall R p, (R, p) ∈ kvs ->
     exists l, heap σ !! p = Some l /\ Resolution l = R) ->
  forall m0 : gmap Z nat,
  exists m : gmap Z nat,
    foldl (Lists.tickOne σ) (Some m0) kvs.*2 = Some m /\
    forall R, m !! R =
      match (list_to_map kvs : gmap Z nat) !! R with
      | Some p => Len <$> heap σ !! p
      | None => m0 !! R
      end.
Proof.
  induction kvs as [|[R0 p0] kvs IH]; intros Hnd Hok m0.
  - exists m0. split; [reflexivity|]. intros R. cbn. rewrite lookup_empty.
    reflexivity.
  - cbn in Hnd. apply NoDup_cons in Hnd as (Hnew & Hnd).
    destruct (Hok R0 p0) as (l0 & Hl0 & Hr0); [apply elem_of_cons; auto|].
    destruct (IH Hnd (fun R p Hin => Hok R p (proj2 (elem_of_cons _ _ _) (or_intror Hin)))
                (<[R0 := Len l0]> m0)) as (m & Hfold & Hm).
    exists m. split.
    + rewrite fmap_cons. cbn [foldl snd].
      assert (Lists.tickOne σ (Some m0) p0 = Some (<[R0 := Len l0]> m0)) as ->
        by (unfold Lists.tickOne; rewrite Hl0, Hr0; reflexivity).
      exact Hfold.
    + intros R. rewrite Hm. cbn. destruct (decide (R0 = R)) as [<-|Hne].
      * rewrite !lookup_insert_eq, Hl0.
        rewrite (not_elem_of_list_to_map_1 _ _ Hnew). reflexivity.
      * rewrite !lookup_insert_ne by exact Hne. reflexivity.
Qed.

(** X11: in every such state [Tick] returns, for each resolution of the
    registry and for nothing else, the number of handles in the list of
    that resolution; closing the registry does not change that. *)
Theorem Tick_reports_every_list
    (ops : list Lists.RegOp) (o : Options Sink Pool) (ls : mlists) (σ : store) :
  Lists.regRun ops (Lists.newMetricLists o) (mkStore [] []) = Some (ls, σ) ->
  exists m : gmap Z nat,
    Lists.Tick ls σ = Some m /\
    dom m = dom (lists ls) /\
    forall R p l, lists ls !! R = Some p -> heap σ !! p = Some l ->
                  m !! R = Some (Len l).
Proof.
  intros Hrun.
  destruct (regRun_registryOk ops _ ls _ σ Hrun (registryOk_new o))
    as (_ & _ & Hbind).
  destruct (tick_fold σ (map_to_list (lists ls))) with (m0 := (∅ : gmap Z nat))
    as (m & Hfold & Hm).
  - apply NoDup_fst_map_to_list.
  - intros R p Hin. apply elem_of_map_to_list in Hin.
    destruct (Hbind R p Hin) as (l & Hl & Hr & _). eauto.
  - rewrite list_to_map_to_list in Hm. exists m. split; [exact Hfold|]. split.
    + apply set_eq. intros R. rewrite !elem_of_dom, Hm.
      destruct (lists ls !! R) as [p|] eqn:Hp.
      * destruct (Hbind R p Hp) as (l & -> & _). cbn. split; eauto.
      * rewrite lookup_empty. split; intros [? ?]; discriminate.
    + intros R p l Hp Hl. rewrite Hm, Hp, Hl. reflexivity.
Qed.

(** *** After the registry is closed *)

Lemma regStep_stays_closed (op : Lists.RegOp) (ls ls' : mlists) (σ σ' : store) :
  Lists.regStep op ls σ = Some (ls', σ') ->
  ls_closed ls = true -> ls' = ls.
Proof.
  intros Hstep Hc. destruct op as [R| |p op]; cbn in Hstep.
  - rewrite (FindOrCreate_closed R ls σ Hc) in Hstep. congruence.
  - unfold Lists.Close in Hstep. rewrite Hc in Hstep. congruence.
  - destruct (heap σ !! p) as [l|]; [|discriminate].
    destruct (step op l); [|discriminate]. congruence.
Qed.

Lemma regRun_stays_closed (ops : list Lists.RegOp) (ls ls' : mlists) (σ σ' : store) :
  Lists.regRun ops ls σ = Some (ls', σ') ->
  ls_closed ls = true -> ls' = ls.
Proof.
  revert ls σ; induction ops as [|op ops IH]; intros ls σ; cbn.
  - intros [= <- <-]; auto.
  - destruct (Lists.regStep op ls σ) as [[ls1 σ1]|] eqn:Hs; [|discriminate].
    intros Hr Hc. pose proof (regStep_stays_closed _ _ _ _ _ Hs Hc) as ->.
    eapply IH; eassumption.
Qed.

(** X12: once the registry's [Close] has run, whatever is done next with
    the registry or with its lists, the registry stays closed, its map is
    what it was, and [PushBack] fails with [errListClosed] on every list
    of the map. *)
Theorem PushBack_fails_after_registry_Close
    (before after : list Lists.RegOp) (o : Options Sink Pool)
    (ls1 ls2 : mlists) (σ1 σ2 : store) :
  Lists.regRun before (Lists.newMetricLists o) (mkStore [] []) = Some (ls1, σ1) ->
  Lists.regRun (Lists.RClose :: after) ls1 σ1 = Some (ls2, σ2) ->
  ls_closed ls2 = true /\
  lists ls2 = lists ls1 /\
  forall R p, lists ls2 !! R = Some p ->
    exists l, heap σ2 !! p = Some l /\
              forall value, PushBack value l = (l, (None, Some errListClosed)).
Proof.
  intros Hbefore Hafter.
  pose proof (regRun_registryOk _ _ _ _ _ Hbefore (registryOk_new o)) as Hok1.
  pose proof (regRun_registryOk _ _ _ _ _ Hafter Hok1) as (_ & _ & Hbind).
  cbn in Hafter.
  pose proof (Lists_Close_closed ls1 σ1) as Hc.
  assert (Hlists : lists (Lists.Close ls1 σ1).1 = lists ls1).
  { unfold Lists.Close. destruct (ls_closed ls1); reflexivity. }
  destruct (Lists.Close ls1 σ1) as [lsc σc]. cbn in Hc, Hlists.
  pose proof (regRun_stays_closed _ _ _ _ _ Hafter Hc) as ->.
  split; [exact Hc|]. split; [exact Hlists|].
  intros R p Hp. destruct (Hbind R p Hp) as (l & Hl & _ & Hcl).
  exists l. split; [exact Hl|]. intros value.
  unfold PushBack. rewrite (Hcl Hc). reflexivity.
Qed.

End RegistryMore.

(** ** The further properties on the sample collaborators *)

Section MoreSampleRuns.
Import Sample.

Local Abbreviation slist := (metricList unit scripted scriptedSink stackPool).
Local Abbreviation slists := (metricLists unit scripted scriptedSink stackPool).
Local Abbreviation sstore := (Store unit scripted scriptedSink stackPool).

Lemma loaded_flushed :
  exists l' : slist, run (pushes ++ [OpFlush 25 26]) fresh = Some l'.
Proof. eexists. vm_compute. reflexivity. Defined.

Lemma handoffs_counted_once_witness :
  exists l : slist,
    run (pushes ++ [OpFlush 25 26]) fresh = Some l /\
    length (handed (trace l)) = 3 /\
    (flushSuccess (metrics l) + flushErrors (metrics l))%Z = 3%Z.
Proof.
  eexists. split; [vm_compute; reflexivity|]. split; [reflexivity|].
  match goal with |- (flushSuccess (metrics ?l) + _)%Z = _ =>
    assert (Hrun : run (pushes ++ [OpFlush 25 26])
                     (newMetricList 10000000000 opts2) = Some l)
      by (vm_compute; reflexivity);
    exact (proj1 (handoffs_counted_once 10000000000 opts2 _ l Hrun))
  end.
Defined.

Lemma encode_errors_count_rejected_witness :
  exists l : slist,
    run (pushes ++ [OpFlush 25 26]) fresh = Some l /\
    length (emitted (trace l)) = 4 /\
    length (okRecords (emitted (trace l))) = 3 /\
    encodeErrors (metrics l) = (4 - 3)%Z.
Proof.
  eexists. split; [vm_compute; reflexivity|]. do 2 (split; [reflexivity|]).
  match goal with |- encodeErrors (metrics ?l) = _ =>
    assert (Hrun : run (pushes ++ [OpFlush 25 26])
                     (newMetricList 10000000000 opts2) = Some l)
      by (vm_compute; reflexivity);
    exact (proj1 (encode_errors_count_rejected 10000000000 opts2 _ l Hrun))
  end.
Defined.

Lemma handed_buffers_bounded_witness :
  exists l : slist,
    run (pushes ++ [OpFlush 25 26]) fresh = Some l /\
    handed (trace l) = [a1; c3; b2] /\
    Forall (boundedBuffer 2) (handed (trace l)).
Proof.
  eexists. split; [vm_compute; reflexivity|]. split; [reflexivity|].
  match goal with |- Forall _ (handed (trace ?l)) =>
    assert (Hrun : run (pushes ++ [OpFlush 25 26])
                     (newMetricList 10000000000 opts2) = Some l)
      by (vm_compute; reflexivity);
    exact (proj1 (handed_buffers_bounded 10000000000 opts2 _ l eq_refl Hrun))
  end.
Defined.

Lemma Flush_without_records_skips_sink_witness :
  exists l' : slist,
    Flush 25 26 (roomy [true] elemRejected) = Some l' /\
    encodeErrors (metrics l') = 2%Z /\
    handed (trace l') = [] /\
    flushHandler l' = SinkScript [true].
Proof.
  eexists. split; [vm_compute; reflexivity|]. split; [reflexivity|].
  match goal with |- handed (trace ?l') = _ /\ _ =>
    assert (HF : Flush 25 26 (roomy [true] elemRejected) = Some l')
      by (vm_compute; reflexivity);
    assert (Hnone : okRecords (toRecord <$>
                      emissionsOf (alignedStart 25 (roomy [true] elemRejected))
                        (aggregations (roomy [true] elemRejected))) = [])
      by (vm_compute; reflexivity);
    destruct (Flush_without_records_skips_sink 25 26
                (roomy [true] elemRejected) l' eq_refl eq_refl Hnone HF)
      as (Hh & _ & _ & Hs)
  end.
  split; [exact Hh|exact Hs].
Defined.

Lemma Flush_same_whatever_the_sink_witness :
  flushData loaded = flushData loadedOk /\
  flushHandler loaded <> flushHandler loadedOk /\
  exists (l1' l2' : slist) (delta : list bytes),
    Flush 25 26 loaded = Some l1' /\
    Flush 25 26 loadedOk = Some l2' /\
    flushData l1' = flushData l2' /\
    handed (trace l1') = handed (trace loaded) ++ delta /\
    handed (trace l2') = handed (trace loadedOk) ++ delta.
Proof.
  split; [reflexivity|]. split; [discriminate|].
  destruct loaded_flushed as [l1' Hrun].
  assert (HF : Flush 25 26 loaded = Some l1') by exact Hrun.
  destruct (Flush_same_whatever_the_sink 25 26 loaded loadedOk l1' eq_refl HF)
    as (l2' & delta & HF2 & Hd & H1 & H2).
  exists l1', l2', delta. auto.
Defined.

Lemma Flush_consumes_at_one_boundary_witness :
  exists l' : slist,
    Flush 25000000123 25000000456 loaded = Some l' /\
    boundaries (trace l') = [20000000000%Z; 20000000000%Z].
Proof.
  eexists. split; [vm_compute; reflexivity|].
  match goal with |- boundaries (trace ?l') = _ =>
    assert (HF : Flush 25000000123 25000000456 loaded = Some l')
      by (vm_compute; reflexivity);
    exact (proj1 (Flush_consumes_at_one_boundary _ _ loaded l' HF))
  end.
Defined.

Lemma Flush_counts_collected_witness :
  exists l' : slist,
    NoDup (elemId <$> aggregations loaded) /\
    Flush 25 26 loaded = Some l' /\
    Len loaded = 2 /\ Len l' = 1 /\
    flushCollected (metrics l') = (0 + (2 - 1))%Z.
Proof.
  assert (Hnd : NoDup (elemId <$> aggregations loaded)).
  { apply (run_distinctHandles pushes fresh loaded eq_refl).
    apply newMetricList_distinctHandles. }
  eexists. split; [exact Hnd|]. split; [vm_compute; reflexivity|].
  do 2 (split; [reflexivity|]).
  match goal with |- flushCollected (metrics ?l') = _ =>
    assert (HF : Flush 25 26 loaded = Some l') by (vm_compute; reflexivity);
    destruct (Flush_counts_collected 25 26 loaded l' Hnd HF) as (_ & Hc & _)
  end.
  exact Hc.
Defined.

Lemma regOps_run :
  exists (ls : slists) (σ : sstore), Lists.regRun regOps registry emptyStore = Some (ls, σ).
Proof. eexists. eexists. vm_compute. reflexivity. Defined.

Lemma registry_lists_keep_resolution_witness :
  exists (ls : slists) (σ : sstore),
    Lists.regRun regOps registry emptyStore = Some (ls, σ) /\
    registered σ = seq 0 (length (heap σ)) /\
    forall R p, lists ls !! R = Some p ->
      exists l, heap σ !! p = Some l /\ Resolution l = R.
Proof.
  destruct regOps_run as (ls & σ & Hrun). exists ls, σ.
  split; [exact Hrun|].
  destruct (registry_lists_keep_resolution regOps opts2 ls σ Hrun)
    as (Hreg & Hbind & _).
  split; [exact Hreg|exact Hbind].
Defined.

Lemma Tick_reports_every_list_witness :
  exists (ls : slists) (σ : sstore) (m : gmap Z nat),
    Lists.regRun regOps registry emptyStore = Some (ls, σ) /\
    Lists.Tick ls σ = Some m /\ dom m = dom (lists ls).
Proof.
  destruct regOps_run as (ls & σ & Hrun).
  destruct (Tick_reports_every_list regOps opts2 ls σ Hrun) as (m & Ht & Hd & _).
  exists ls, σ, m. auto.
Defined.

Lemma PushBack_fails_after_registry_Close_witness :
  exists (ls1 ls2 : slists) (σ1 σ2 : sstore),
    Lists.regRun regOps registry emptyStore = Some (ls1, σ1) /\
    Lists.regRun [Lists.RClose; Lists.RFindOrCreate 5; Lists.ROnList 0 (OpFlush 35 36)]
      ls1 σ1 = Some (ls2, σ2) /\
    ls_closed ls2 = true /\ lists ls2 = lists ls1.
Proof.
  destruct regOps_run as (ls1 & σ1 & Hrun).
  assert (Hafter : exists ls2 σ2,
    Lists.regRun [Lists.RClose; Lists.RFindOrCreate 5; Lists.ROnList 0 (OpFlush 35 36)]
      ls1 σ1 = Some (ls2, σ2)).
  { vm_compute in Hrun. injection Hrun as <- <-. eexists. eexists.
    vm_compute. reflexivity. }
  destruct Hafter as (ls2 & σ2 & Hafter).
  destruct (PushBack_fails_after_registry_Close regOps _ opts2 ls1 ls2 σ1 σ2
              Hrun Hafter) as (Hc & Hl & _).
  exists ls1, ls2, σ1, σ2. auto.
Defined.

End MoreSampleRuns.

(** ** The pool of finalizer slices *)

Section FinalizerFacts.
Context {F P : Type} `{!ObjectPool P (slice (option F))}.

Local Abbreviation finalizers := (slice (option F)).

(** The clearing loop in closed form. *)
Lemma clear_loop (n : nat) (arr : list (option F)) :
  n <= length arr ->
  foldl (fun a i => <[i := None]> a) arr (seq 0 n) =
  replicate n None ++ drop n arr.
Proof.
  induction n as [|n IH]; intros Hn; [reflexivity|].
  rewrite seq_S, foldl_app, IH by lia. cbn [foldl].
  destruct (lookup_lt_is_Some_2 arr n ltac:(lia)) as [x Hx].
  rewrite (drop_S arr x n Hx).
  rewrite insert_app_r_alt by (rewrite length_replicate; lia).
  rewrite length_replicate, Nat.sub_diag. cbn.
  rewrite cons_middle, app_assoc, <- replicate_S_end. reflexivity.
Qed.

Lemma clear_shape (elems : finalizers) :
  slen elems <= Finalizers.cap elems ->
  slen (Finalizers.clear elems) = slen elems /\
  Finalizers.cap (Finalizers.clear elems) = Finalizers.cap elems /\
  Finalizers.visible (Finalizers.clear elems) = replicate (slen elems) None /\
  drop (slen elems) (backing (Finalizers.clear elems)) =
    drop (slen elems) (backing elems).
Proof.
  intros Hwf. unfold Finalizers.clear, Finalizers.visible, Finalizers.cap in *.
  cbn. rewrite (clear_loop _ _ Hwf).
  split; [reflexivity|]. split; [|split].
  - rewrite length_app, length_replicate, length_drop. lia.
  - apply take_app_length'. rewrite length_replicate. reflexivity.
  - apply drop_app_length'. rewrite length_replicate. reflexivity.
Qed.

(** X13: for [n >= 0], [grow] returns a slice of length [n] whose
    elements are all nil; it keeps the underlying array when the capacity
    suffices, leaving the part past [n] as it was, and otherwise
    allocates one of capacity [n]; a negative [n] panics. *)
Theorem grow_returns_cleared_slice (elems : finalizers) (n : Z) :
  ((0 <= n)%Z ->
   exists s, Finalizers.grow elems n = Some s /\
     slen s = Z.to_nat n /\
     Finalizers.visible s = replicate (Z.to_nat n) None /\
     Finalizers.cap s = Nat.max (Finalizers.cap elems) (Z.to_nat n) /\
     ((n <= Z.of_nat (Finalizers.cap elems))%Z ->
      drop (Z.to_nat n) (backing s) = drop (Z.to_nat n) (backing elems))) /\
  ((n < 0)%Z -> Finalizers.grow elems n = None).
Proof.
  split.
  - intros Hn. unfold Finalizers.grow.
    destruct (Z.ltb_spec (Z.of_nat (Finalizers.cap elems)) n) as [Hlt|Hge].
    + unfold Finalizers.make.
      destruct (Z.ltb_spec n 0) as [?|_]; [lia|].
      rewrite Z.ltb_irrefl. cbn [orb].
      unfold Finalizers.reslice, Finalizers.cap. cbn [backing].
      rewrite length_replicate, Z2Nat.id by lia.
      destruct (Z.ltb_spec n 0) as [?|_]; [lia|].
      rewrite Z.ltb_irrefl. cbn [orb].
      set (s0 := mkSlice (replicate (Z.to_nat n) (None : option F)) (Z.to_nat n)).
      destruct (clear_shape s0) as (Hl & Hc & Hv & _).
      { unfold Finalizers.cap, s0. cbn. rewrite length_replicate. lia. }
      exists (Finalizers.clear s0). split; [reflexivity|].
      unfold Finalizers.cap in Hlt, Hc.
      split; [exact Hl|]. split; [exact Hv|]. split; [|intros; lia].
      unfold Finalizers.cap. rewrite Hc. unfold s0. cbn.
      rewrite length_replicate. lia.
    + unfold Finalizers.reslice.
      destruct (Z.ltb_spec n 0) as [?|_]; [lia|].
      destruct (Z.ltb_spec (Z.of_nat (Finalizers.cap elems)) n) as [?|_]; [lia|].
      cbn [orb].
      set (s0 := mkSlice (backing elems) (Z.to_nat n)).
      destruct (clear_shape s0) as (Hl & Hc & Hv & Hd).
      { unfold Finalizers.cap, s0 in *. cbn. lia. }
      exists (Finalizers.clear s0). split; [reflexivity|].
      unfold Finalizers.cap in Hge, Hc.
      split; [exact Hl|]. split; [exact Hv|]. split; [|intros _; exact Hd].
      unfold Finalizers.cap. rewrite Hc. unfold s0. cbn. lia.
  - intros Hn. unfold Finalizers.grow.
    destruct (Z.ltb_spec (Z.of_nat (Finalizers.cap elems)) n) as [Hlt|_]; [lia|].
    unfold Finalizers.reslice.
    destruct (Z.ltb_spec n 0) as [_|?]; [reflexivity|lia].
Qed.

(** X14: a pool made by [newFinalizersArrayPool] without a finalize
    function never panics in [Put].  It drops the slice (the object pool
    is not touched) exactly when [MaxCapacity] is positive and the
    capacity of the slice exceeds it; otherwise the object pool receives a
    slice of length 0 on the same underlying array, in which the elements
    the argument made reachable are nil and the rest is as it was. *)
Theorem Put_pools_cleared_slices
    (capacity max : Z) (arr : finalizers) :
  slen arr <= Finalizers.cap arr ->
  let p := Finalizers.newFinalizersArrayPool
             (Finalizers.mkPoolOpts capacity max None) in
  exists p', Finalizers.Put p arr = Some p' /\
    Finalizers.opts p' = Finalizers.opts p /\
    (((0 < max)%Z /\ (max < Z.of_nat (Finalizers.cap arr))%Z) ->
     Finalizers.pool p' = Finalizers.pool p) /\
    (~ ((0 < max)%Z /\ (max < Z.of_nat (Finalizers.cap arr))%Z) ->
     exists s, Finalizers.pool p' = pool_Put (Finalizers.pool p) s /\
       slen s = 0 /\ Finalizers.cap s = Finalizers.cap arr /\
       take (slen arr) (backing s) = replicate (slen arr) None /\
       drop (slen arr) (backing s) = drop (slen arr) (backing arr)).
Proof.
  intros Hwf p. destruct (clear_shape arr Hwf) as (Hl & Hc & Hv & Hd).
  assert (Hcap : Finalizers.cap (Finalizers.defaultFinalizersFinalizerFn arr)
                 = Finalizers.cap arr) by exact Hc.
  unfold Finalizers.Put. subst p. cbn [Finalizers.newFinalizersArrayPool
    Finalizers.FinalizeFn Finalizers.opts Finalizers.MaxCapacity Finalizers.pool].
  rewrite Hcap.
  destruct (Z.ltb_spec 0 max) as [Hpos|Hnp];
    [destruct (Z.ltb_spec max (Z.of_nat (Finalizers.cap arr))) as [Hbig|Hsm]|];
    cbn [andb]; eexists; (split; [reflexivity|]); (split; [reflexivity|]);
    split; try (intros; reflexivity); try (intros [? ?]; lia);
    try (intros Hno; exfalso; apply Hno; split; assumption).
  all: intros _; exists (Finalizers.defaultFinalizersFinalizerFn arr);
    split; [reflexivity|]; split; [reflexivity|]; split; [exact Hc|];
    split; [|exact Hd].
  all: unfold Finalizers.visible in Hv; rewrite Hl in Hv; exact Hv.
Qed.

End FinalizerFacts.

Section FinalizerRuns.
Import FinalizerSample.

Lemma grow_returns_cleared_slice_witness :
  (0 <= 3)%Z /\
  Finalizers.grow used 3 = Some (mkSlice [None; None; None; None] 3) /\
  Finalizers.grow used 6 = Some (mkSlice (replicate 6 None) 6).
Proof.
  assert (H3 : (0 <= 3)%Z) by lia.
  destruct (proj1 (grow_returns_cleared_slice used 3) H3) as (s & Hs & _).
  split; [exact H3|]. split; [|reflexivity].
  rewrite Hs. vm_compute in Hs. symmetry. exact Hs.
Defined.

Lemma Put_pools_cleared_slices_witness :
  slen used <= Finalizers.cap used /\
  Finalizers.pool <$>
    Finalizers.Put (Finalizers.newFinalizersArrayPool (poolOpts 8)) used =
    Some [mkSlice [None; None; Some 9; None] 0] /\
  Finalizers.pool <$>
    Finalizers.Put (Finalizers.newFinalizersArrayPool (poolOpts 3)) used =
    Some [].
Proof.
  assert (Hwf : slen used <= Finalizers.cap used) by (vm_compute; lia).
  destruct (Put_pools_cleared_slices (P := list (slice (option nat))) 4 8 used Hwf)
    as (p' & Hp & _).
  split; [exact Hwf|]. split; reflexivity.
Defined.

End FinalizerRuns.
